(** * jsonrpc2: a shallow embedding of the dispatch and correlation engine

    The development follows the Go sources of the library:
    - [protocol/protocol.go] and the error constructors of package [protocol];
    - [router.go], [context.go] and [server.go] (the revision with global
      middlewares and graceful shutdown);
    - [client.go] (the revision with string keys and [idToKey]).

    Go values of type [interface{}] are a tagged union, integers are [Z],
    IEEE floats are [spec_float], maps are [gmap], pointers to calls and
    channels are references into explicit stores. *)

From Stdlib Require Import ZArith Lia QArith Qabs.
From Stdlib Require Import Floats.SpecFloat.
From stdpp Require Import gmap strings list fin_maps pretty.

#[local] Open Scope Z_scope.

(** ** Go values held in an [interface{}] *)

Inductive IntKind : Type :=
| KInt | KInt8 | KInt16 | KInt32 | KInt64
| KUint | KUint8 | KUint16 | KUint32 | KUint64.

Inductive FloatKind : Type := KFloat32 | KFloat64.

(** [VNil] is the nil interface.  [VErrorPtr] is a value of dynamic type
    [*protocol.ErrorObject]; [VErrorNilPtr] is the nil pointer of that type
    stored in a non-nil interface.  [VOther] stands for every other dynamic
    type (slices, maps, structs, other pointers); it carries the type name
    printed by [%T] and an opaque rendering of the contents. *)
Inductive Value : Type :=
| VNil
| VBool (b : bool)
| VInt (k : IntKind) (n : Z)
| VFloat (k : FloatKind) (f : spec_float)
| VString (s : string)
| VErrorNilPtr
| VErrorPtr (code : Z) (message : string) (data : Value)
| VOther (gotype : string) (repr : string).

(** The contents of a [json.RawMessage]: one JSON value, already checked by
    the stream decoder.  Integer literals carry their value; other number
    literals, arrays and objects carry their text. *)
Inductive JSON : Type :=
| JNull
| JBool (b : bool)
| JInt (n : Z)
| JFrac (lit : string)
| JString (s : string)
| JArray (text : string)
| JObject (text : string).

Module protocol.

(** [type ErrorObject struct { Code int; Message string; Data interface{} }] *)
Record ErrorObject : Type := mkErrorObject {
  Code : Z;
  Message : string;
  Data : Value
}.

(** [type Request struct].  [Params] is a [json.RawMessage]: [None] is the
    nil slice left by a missing ["params"] member. *)
Record Request : Type := mkRequest {
  req_Jsonrpc : string;
  Method : string;
  Params : option JSON;
  ID : Value
}.

(** [type Response struct].  [Error] is a pointer: [None] is nil. *)
Record Response : Type := mkResponse {
  Jsonrpc : string;
  Result : Value;
  Error : option ErrorObject;
  resp_ID : Value
}.

Definition CodeParseError : Z := -32700.
Definition CodeInvalidRequest : Z := -32600.
Definition CodeMethodNotFound : Z := -32601.
Definition CodeInvalidParams : Z := -32602.
Definition CodeInternalError : Z := -32603.

Definition NewError (code : Z) (message : string) (data : Value) : ErrorObject :=
  {| Code := code; Message := message; Data := data |}.

Definition ParseError (data : Value) : ErrorObject :=
  NewError CodeParseError "Parse error" data.

Definition InvalidRequestError (data : Value) : ErrorObject :=
  NewError CodeInvalidRequest "Invalid Request" data.

Definition MethodNotFoundError (data : Value) : ErrorObject :=
  NewError CodeMethodNotFound "Method not found" data.

Definition InvalidParamsError (data : Value) : ErrorObject :=
  NewError CodeInvalidParams "Invalid params" data.

Definition InternalError (data : Value) : ErrorObject :=
  NewError CodeInternalError "Internal error" data.

End protocol.

(** A non-nil [*protocol.ErrorObject] stored in an [interface{}]. *)
Definition box_error (e : protocol.ErrorObject) : Value :=
  VErrorPtr (protocol.Code e) (protocol.Message e) (protocol.Data e).

(** Go values of type [error]. *)
Inductive GoError : Type :=
| ErrorsNew (msg : string)
| RpcError (e : protocol.ErrorObject)
| UnmarshalTypeError (value : string) (gotype : string)
| IOError (msg : string).

(** ** Formatting verbs used by [idToKey] *)

(** The name printed by [%T]. *)
Definition int_kind_name (k : IntKind) : string :=
  match k with
  | KInt => "int" | KInt8 => "int8" | KInt16 => "int16" | KInt32 => "int32"
  | KInt64 => "int64" | KUint => "uint" | KUint8 => "uint8"
  | KUint16 => "uint16" | KUint32 => "uint32" | KUint64 => "uint64"
  end.

Definition type_name (v : Value) : string :=
  match v with
  | VNil => "<nil>"
  | VBool _ => "bool"
  | VInt k _ => int_kind_name k
  | VFloat KFloat32 _ => "float32"
  | VFloat KFloat64 _ => "float64"
  | VString _ => "string"
  | VErrorNilPtr | VErrorPtr _ _ _ => "*protocol.ErrorObject"
  | VOther t _ => t
  end.

(** [fmt.Sprintf("%d", v)] on an integer: the decimal digits, with a leading
    minus sign for negative values. *)
Definition sprintf_d (n : Z) : string := pretty n.

(** [m / 2^k] rounded to the nearest integer, ties to even: the rounding
    [strconv] applies to the exact decimal expansion of a float. *)
Definition round_half_even (m k : Z) : Z :=
  let q := m / 2 ^ k in
  let r := m mod 2 ^ k in
  match (2 * r ?= 2 ^ k) with
  | Lt => q
  | Gt => q + 1
  | Eq => if Z.even q then q else q + 1
  end.

(** The magnitude of a finite float [m * 2^e], rounded to an integer. *)
Definition round_magnitude (m : positive) (e : Z) : Z :=
  if 0 <=? e then Z.pos m * 2 ^ e else round_half_even (Z.pos m) (- e).

(** [fmt.Sprintf("%.0f", v)]: sign, then the rounded magnitude.  The sign is
    printed from the sign bit, so negative values that round to zero and the
    negative zero print as ["-0"]. *)
Definition sprintf_f0 (f : spec_float) : string :=
  match f with
  | S754_zero s => if s then "-0" else "0"
  | S754_infinity s => if s then "-Inf" else "+Inf"
  | S754_nan => "NaN"
  | S754_finite s m e =>
      (if s then "-" else "") +:+ pretty (round_magnitude m e)
  end.

(** [func idToKey(id interface{}) (string, error)] *)
Definition idToKey (id : Value) : string * option GoError :=
  match id with
  | VString v => (v, None)
  | VInt _ v => (sprintf_d v, None)
  | VFloat _ v => (sprintf_f0 v, None)
  | v => (""%string,
          Some (ErrorsNew ("jsonrpc2: unsupported id type '" +:+ type_name v
                           +:+ "' for map key")))
  end.

(** ** [encoding/json]: the fragment of [json.Unmarshal] used by [Bind]

    A [Target] is the variable the pointer passed to [Bind] points to. *)
Inductive Target : Type :=
| TBool (b : bool)
| TInt (n : Z)
| TString (s : string).

Definition json_kind (j : JSON) : string :=
  match j with
  | JNull => "null"
  | JBool _ => "bool"
  | JInt _ | JFrac _ => "number"
  | JString _ => "string"
  | JArray _ => "array"
  | JObject _ => "object"
  end.

Definition target_type (t : Target) : string :=
  match t with
  | TBool _ => "bool"
  | TInt _ => "int"
  | TString _ => "string"
  end.

Definition in_int64 (n : Z) : bool := (- 2 ^ 63 <=? n) && (n <? 2 ^ 63).

(** [json.Unmarshal(data, v)]: a JSON null leaves the target alone; a value
    of the wrong kind leaves it alone and yields an [*json.UnmarshalTypeError]. *)
Definition json_Unmarshal (data : JSON) (v : Target) : Target * option GoError :=
  match data, v with
  | JNull, _ => (v, None)
  | JBool b, TBool _ => (TBool b, None)
  | JInt n, TInt _ =>
      if in_int64 n then (TInt n, None)
      else (v, Some (UnmarshalTypeError ("number " +:+ pretty n) "int"))
  | JFrac lit, TInt _ => (v, Some (UnmarshalTypeError ("number " +:+ lit) "int"))
  | JString s, TString _ => (TString s, None)
  | _, _ => (v, Some (UnmarshalTypeError (json_kind data) (target_type v)))
  end.

(** ** Handlers and the request context ([context.go])

    A [HandlerFunc] is Go code that receives the [*Context] and talks to it
    through its methods.  It is represented by the tree of method calls it
    makes, each node continuing with the value the call returned. *)
Inductive HandlerFunc : Type :=
| Return
| CallNext (k : HandlerFunc)
| CallResult (data : Value) (k : HandlerFunc)
| CallError (err : option protocol.ErrorObject) (k : HandlerFunc)
| CallGetResponseError (k : option protocol.ErrorObject -> HandlerFunc)
| CallGetResponseResult (k : Value -> HandlerFunc)
| CallBind (v : Target) (k : Target -> option GoError -> HandlerFunc)
| CallSet (key : string) (value : Value) (k : HandlerFunc)
| CallGet (key : string) (k : option Value -> HandlerFunc)
| ReadRequest (k : protocol.Request -> HandlerFunc).

(** What happened while a request was processed: calls of [Next], the entry
    and exit of the handler at a given index of the chain, and calls of
    [Result] and [Error]. *)
Inductive Event : Type :=
| EvNext
| EvEnter (i : nat)
| EvLeave (i : nat)
| EvResult (data : Value)
| EvError (err : option protocol.ErrorObject).

(** [type Context struct].  [Conn] and the embedded [context.Context] are not
    touched by the engine.  [events] is a history variable. *)
Record Context : Type := mkContext {
  Request : protocol.Request;
  store : gmap string Value;
  responseResult : Value;
  responseError : option protocol.ErrorObject;
  handlerChain : list HandlerFunc;
  handlerIdx : Z;
  events : list Event
}.

Definition set_handlerIdx (i : Z) (c : Context) : Context :=
  mkContext (Request c) (store c) (responseResult c) (responseError c)
            (handlerChain c) i (events c).

Definition log_event (e : Event) (c : Context) : Context :=
  mkContext (Request c) (store c) (responseResult c) (responseError c)
            (handlerChain c) (handlerIdx c) (events c ++ [e]).

(** [func (c *Context) GetResponseError() *protocol.ErrorObject] *)
Definition GetResponseError (c : Context) : option protocol.ErrorObject :=
  responseError c.

(** [func (c *Context) GetResponseResult() interface{}] *)
Definition GetResponseResult (c : Context) : Value := responseResult c.

(** [func (c *Context) Bind(v interface{}) error], with the context threaded
    through as for every pointer-receiver method. *)
Definition Bind (c : Context) (v : Target) : Context * Target * option GoError :=
  match protocol.Params (Request c) with
  | None =>
      (c, v, Some (RpcError (protocol.InvalidParamsError (VString "params are null"))))
  | Some raw =>
      let '(v', err) := json_Unmarshal raw v in (c, v', err)
  end.

(** [func (c *Context) Result(data interface{})] *)
Definition Result (c : Context) (data : Value) : Context :=
  mkContext (Request c) (store c) data (responseError c)
            (handlerChain c) (handlerIdx c) (events c ++ [EvResult data]).

(** [func (c *Context) Error(err *protocol.ErrorObject)] *)
Definition Error (c : Context) (err : option protocol.ErrorObject) : Context :=
  mkContext (Request c) (store c) (responseResult c) err
            (handlerChain c) (handlerIdx c) (events c ++ [EvError err]).

(** [func (c *Context) Set(key string, value interface{})] *)
Definition Set_ (c : Context) (key : string) (value : Value) : Context :=
  mkContext (Request c) (<[key := value]> (store c)) (responseResult c)
            (responseError c) (handlerChain c) (handlerIdx c) (events c).

(** [func (c *Context) Get(key string) (interface{}, bool)] *)
Definition Get (c : Context) (key : string) : option Value := store c !! key.

(** Running the body of one handler; [next] is the [Next] method. *)
Fixpoint exec (next : Context -> option Context) (h : HandlerFunc) (c : Context)
  : option Context :=
  match h with
  | Return => Some c
  | CallNext k =>
      match next c with
      | Some c' => exec next k c'
      | None => None
      end
  | CallResult data k => exec next k (Result c data)
  | CallError err k => exec next k (Error c err)
  | CallGetResponseError k => exec next (k (GetResponseError c)) c
  | CallGetResponseResult k => exec next (k (GetResponseResult c)) c
  | CallBind v k =>
      let '(c', v', err) := Bind c v in exec next (k v' err) c'
  | CallSet key value k => exec next k (Set_ c key value)
  | CallGet key k => exec next (k (Get c key)) c
  | ReadRequest k => exec next (k (Request c)) c
  end.

(** [func (c *Context) Next()].  Handlers call [Next] recursively, so the
    definition is by recursion on a bound on the nesting depth; [None] means
    the bound was too small, or the index expression panicked. *)
Fixpoint Next (fuel : nat) (c : Context) : option Context :=
  let c1 := log_event EvNext (set_handlerIdx (handlerIdx c + 1) c) in
  if handlerIdx c1 <? Z.of_nat (length (handlerChain c1)) then
    if handlerIdx c1 <? 0 then None
    else
      let i := Z.to_nat (handlerIdx c1) in
      match handlerChain c1 !! i, fuel with
      | Some h, S fuel' =>
          match exec (Next fuel') h (log_event (EvEnter i) c1) with
          | Some c2 => Some (log_event (EvLeave i) c2)
          | None => None
          end
      | _, _ => None
      end
  else Some c1.

(** ** The method registry ([router.go]) *)

Record handlerEntry : Type := mkHandlerEntry { chain : list HandlerFunc }.

Record router : Type := mkRouter { handlers : gmap string handlerEntry }.

Definition newRouter : router := {| handlers := ∅ |}.

(** [func (r *router) add(method string, handlers ...HandlerFunc)]; [None]
    is the panic on an empty chain. *)
Definition router_add (r : router) (method : string) (hs : list HandlerFunc)
  : option router :=
  match hs with
  | [] => None
  | _ => Some {| handlers := <[method := mkHandlerEntry hs]> (handlers r) |}
  end.

(** [func (r *router) find(method string)], returning the entry and [ok]
    as an option. *)
Definition router_find (r : router) (method : string) : option handlerEntry :=
  handlers r !! method.

(** ** The server ([server.go]) *)

(** [type Server struct]: the fields read by request dispatch. *)
Record Server : Type := mkServer {
  srv_router : router;
  globalMiddlewares : list HandlerFunc
}.

Definition NewServer : Server :=
  {| srv_router := newRouter; globalMiddlewares := [] |}.

(** [func (s *Server) Use(middlewares ...HandlerFunc)] *)
Definition Use (s : Server) (middlewares : list HandlerFunc) : Server :=
  {| srv_router := srv_router s;
     globalMiddlewares := globalMiddlewares s ++ middlewares |}.

(** [func (s *Server) Handle(method string, handlers ...HandlerFunc)] *)
Definition Handle (s : Server) (method : string) (hs : list HandlerFunc)
  : option Server :=
  match router_add (srv_router s) method hs with
  | Some r => Some {| srv_router := r; globalMiddlewares := globalMiddlewares s |}
  | None => None
  end.

(** [func createResponse(id interface{}, data interface{}) protocol.Response]:
    the type switch sends every [*protocol.ErrorObject], nil or not, to the
    [Error] field and everything else, the nil interface included, to
    [Result]. *)
Definition createResponse (id data : Value) : protocol.Response :=
  match data with
  | VErrorPtr code message d =>
      {| protocol.Jsonrpc := "2.0"; protocol.Result := VNil;
         protocol.Error := Some (protocol.mkErrorObject code message d);
         protocol.resp_ID := id |}
  | VErrorNilPtr =>
      {| protocol.Jsonrpc := "2.0"; protocol.Result := VNil;
         protocol.Error := None; protocol.resp_ID := id |}
  | val =>
      {| protocol.Jsonrpc := "2.0"; protocol.Result := val;
         protocol.Error := None; protocol.resp_ID := id |}
  end.

(** [func (s *Server) writeResponse(encoder, m, id, data)]: the encoder is the
    sequence of response objects handed to it so far. *)
Definition writeResponse (encoder : list protocol.Response) (id data : Value)
  : list protocol.Response :=
  encoder ++ [createResponse id data].

(** The [&Context{...}] literal of [handleRequest]. *)
Definition newContext (req : protocol.Request) (finalChain : list HandlerFunc)
  : Context :=
  {| Request := req; store := ∅; responseResult := VNil; responseError := None;
     handlerChain := finalChain; handlerIdx := -1; events := [] |}.

(** [func (s *Server) handleRequest(encoder, sendMutex, conn, req)]: returns
    the encoder and the events of the handler chain. *)
Definition handleRequest (s : Server) (encoder : list protocol.Response)
    (req : protocol.Request) : option (list protocol.Response * list Event) :=
  match protocol.ID req with
  | VNil =>
      Some (writeResponse encoder VNil
              (box_error (protocol.ParseError (protocol.ID req))), [])
  | _ =>
      match router_find (srv_router s) (protocol.Method req) with
      | None =>
          Some (writeResponse encoder (protocol.ID req)
                  (box_error (protocol.MethodNotFoundError
                                (VString (protocol.Method req)))), [])
      | Some entry =>
          let finalChain := globalMiddlewares s ++ chain entry in
          let ctx := newContext req finalChain in
          match Next (length finalChain) ctx with
          | Some ctx' =>
              match responseError ctx' with
              | Some e =>
                  Some (writeResponse encoder (protocol.ID req) (box_error e),
                        events ctx')
              | None =>
                  Some (writeResponse encoder (protocol.ID req) (responseResult ctx'),
                        events ctx')
              end
          | None => None
          end
      end
  end.

(** ** The client ([client.go])

    Calls and channels live on the heap and are shared between the caller,
    the sending goroutine and the receive loop, so they are kept in stores
    and named by references. *)

Definition CallRef : Type := nat.
Definition ChanRef : Type := nat.

(** [type Call struct].  [Args] is kept as the JSON text [json.Marshal]
    makes of it ([None] when marshalling fails); [Reply] is nil or points to
    a variable, whose current contents are recorded. *)
Record Call : Type := mkCall {
  call_Method : string;
  Args : option JSON;
  Reply : option Target;
  call_Error : option GoError;
  Done : ChanRef
}.

(** A [chan *Call] with its capacity and the values sent and not yet
    received. *)
Record Chan : Type := mkChan {
  chan_cap : nat;
  chan_buf : list CallRef
}.

(** [type Client struct] together with the heap and the goroutines around it:
    [encoder] holds the requests written to the connection; [sending] holds,
    for each goroutine inside [send] between registration and write, its
    local variables [id] and [idKey]; [receiving] tells whether the receive
    loop is still decoding. *)
Record Client : Type := mkClient {
  encoder : list protocol.Request;
  seq : Z;
  pending : gmap string CallRef;
  closing : bool;
  shutdown : bool;
  calls : gmap CallRef Call;
  chans : gmap ChanRef Chan;
  sending : gmap CallRef (Value * string);
  receiving : bool
}.

(** The client returned by [Dial]. *)
Definition Dial : Client :=
  {| encoder := []; seq := 0; pending := ∅; closing := false; shutdown := false;
     calls := ∅; chans := ∅; sending := ∅; receiving := true |}.

Definition set_pending (p : gmap string CallRef) (c : Client) : Client :=
  mkClient (encoder c) (seq c) p (closing c) (shutdown c) (calls c) (chans c)
           (sending c) (receiving c).

Definition set_calls (cs : gmap CallRef Call) (c : Client) : Client :=
  mkClient (encoder c) (seq c) (pending c) (closing c) (shutdown c) cs (chans c)
           (sending c) (receiving c).

Definition set_chans (cs : gmap ChanRef Chan) (c : Client) : Client :=
  mkClient (encoder c) (seq c) (pending c) (closing c) (shutdown c) (calls c) cs
           (sending c) (receiving c).

Definition set_sending (sd : gmap CallRef (Value * string)) (c : Client) : Client :=
  mkClient (encoder c) (seq c) (pending c) (closing c) (shutdown c) (calls c)
           (chans c) sd (receiving c).

Definition set_encoder (enc : list protocol.Request) (c : Client) : Client :=
  mkClient enc (seq c) (pending c) (closing c) (shutdown c) (calls c) (chans c)
           (sending c) (receiving c).

(** [call.Error = err] *)
Definition set_call_error (call : CallRef) (err : option GoError) (c : Client)
  : Client :=
  set_calls (alter (fun k => mkCall (call_Method k) (Args k) (Reply k) err (Done k))
                   call (calls c)) c.

(** Writing through the pointer [call.Reply]. *)
Definition set_call_reply (call : CallRef) (t : Target) (c : Client) : Client :=
  set_calls (alter (fun k => mkCall (call_Method k) (Args k) (Some t)
                                    (call_Error k) (Done k))
                   call (calls c)) c.

(** [call.Done <- call].  [None] means the sending goroutine blocks: the
    buffer is full, or the channel is unbuffered. *)
Definition signal (call : CallRef) (c : Client) : option Client :=
  match calls c !! call with
  | Some k =>
      match chans c !! Done k with
      | Some ch =>
          if (length (chan_buf ch) <? chan_cap ch)%nat
          then Some (set_chans (<[Done k := mkChan (chan_cap ch) (chan_buf ch ++ [call])]>
                                  (chans c)) c)
          else None
      | None => None
      end
  | None => None
  end.

(** [<-ch] by the caller's code. *)
Definition receive (ch : ChanRef) (c : Client) : option Client :=
  match chans c !! ch with
  | Some (mkChan n (_ :: rest)) =>
      Some (set_chans (<[ch := mkChan n rest]> (chans c)) c)
  | _ => None
  end.

(** [make(chan *Call, n)] and [&Call{...}]: the next unused reference. *)
Definition make_chan (n : nat) (c : Client) : Client * ChanRef :=
  let r := size (chans c) in
  (set_chans (<[r := mkChan n []]> (chans c)) c, r).

Definition new_call (k : Call) (c : Client) : Client * CallRef :=
  let r := size (calls c) in
  (set_calls (<[r := k]> (calls c)) c, r).

(** The number of completion signals for [call] waiting on channel [ch]. *)
Definition signals_on (ch : ChanRef) (call : CallRef) (c : Client) : nat :=
  match chans c !! ch with
  | Some k => length (filter (fun r => r = call) (chan_buf k))
  | None => 0%nat
  end.

(** A goroutine that has sent its completion signal and returns. *)
Definition returned (c : option Client) : option (Client * bool) :=
  match c with
  | Some c' => Some (c', false)
  | None => None
  end.

(** [send], lines 179-201: the checks and the registration, up to the
    [c.mutex.Unlock()] before the request is marshalled.  The flag tells
    whether the call was registered, so that [send] goes on to write. *)
Definition send_begin (id : Value) (call : CallRef) (c : Client)
  : option (Client * bool) :=
  match id with
  | VNil =>
      returned (signal call
        (set_call_error call
           (Some (ErrorsNew
              "jsonrpc2: request id cannot be null for a call that expects a reply")) c))
  | _ =>
      if shutdown c || closing c then
        returned (signal call
          (set_call_error call (Some (ErrorsNew "client is shut down or closing")) c))
      else
        match idToKey id with
        | (_, Some err) => returned (signal call (set_call_error call (Some err) c))
        | (idKey, None) =>
            Some (set_sending (<[call := (id, idKey)]> (sending c))
                    (set_pending (<[idKey := call]> (pending c)) c), true)
        end
  end.

(** [send], lines 203-226: building the request, [c.encoder.Encode(req)] with
    outcome [err], and the clean-up after a failed write. *)
Definition send_finish (call : CallRef) (err : option GoError) (c : Client)
  : option Client :=
  match sending c !! call, calls c !! call with
  | Some (id, idKey), Some k =>
      let c0 := set_sending (delete call (sending c)) c in
      match err with
      | None =>
          let req := {| protocol.req_Jsonrpc := "2.0";
                        protocol.Method := call_Method k;
                        protocol.Params := Args k;
                        protocol.ID := id |} in
          Some (set_encoder (encoder c0 ++ [req]) c0)
      | Some e =>
          let c1 := if decide (pending c0 !! idKey = Some call)
                    then set_pending (delete idKey (pending c0)) c0
                    else c0 in
          signal call (set_call_error call (Some e) c1)
      end
  | _, _ => None
  end.

(** [func (c *Client) send(id interface{}, call *Call)] run without any other
    goroutine in between. *)
Definition send (id : Value) (call : CallRef) (err : option GoError) (c : Client)
  : option Client :=
  match send_begin id call c with
  | Some (c1, true) => send_finish call err c1
  | Some (c1, false) => Some c1
  | None => None
  end.

(** [func (c *Client) GoWithID(id, method, args, reply, done) *Call], up to
    the point where [send] has registered or rejected the call. *)
Definition GoWithID (id : Value) (method : string) (args : option JSON)
    (reply : option Target) (done : option ChanRef) (c : Client)
  : option (Client * bool) * CallRef :=
  let '(c1, ch) := match done with
                   | Some ch => (c, ch)
                   | None => make_chan 10 c
                   end in
  let '(c2, call) := new_call (mkCall method args reply None ch) c1 in
  (send_begin id call c2, call).

(** [c.seq++] on a [uint64]. *)
Definition next_seq (c : Client) : Client * Value :=
  let n := (seq c + 1) mod 2 ^ 64 in
  (mkClient (encoder c) n (pending c) (closing c) (shutdown c) (calls c)
            (chans c) (sending c) (receiving c), VInt KUint64 n).

(** [func (c *Client) Go(method, args, reply, done) *Call] *)
Definition Go (method : string) (args : option JSON) (reply : option Target)
    (done : option ChanRef) (c : Client) : option (Client * bool) * CallRef :=
  let '(c1, seqID) := next_seq c in
  GoWithID seqID method args reply done c1.

(** [func (c *Client) CallWithID(id, method, args, reply, timeout) error], up
    to the return of [GoWithID]: the call is made on a fresh channel of
    capacity 1.  The [select] between [call.Done] and the timer runs in the
    same goroutine, after [send] has returned. *)
Definition CallWithID (id : Value) (method : string) (args : option JSON)
    (reply : option Target) (c : Client) : option (Client * bool) * CallRef :=
  let '(c1, ch) := make_chan 1 c in
  GoWithID id method args reply (Some ch) c1.

(** [func (c *Client) Call(method, args, reply, timeout) error], likewise. *)
Definition Call_ (method : string) (args : option JSON) (reply : option Target)
    (c : Client) : option (Client * bool) * CallRef :=
  let '(c1, seqID) := next_seq c in
  CallWithID seqID method args reply c1.

(** One iteration of [receiveLoop] after a successful [Decode], lines 62-83.
    [jsonData] is [json.Marshal(res.Result)]. *)
Definition receive_response (res : protocol.Response) (jsonData : JSON) (c : Client)
  : option Client :=
  if receiving c then
    match idToKey (protocol.resp_ID res) with
    | (_, Some _) => Some c
    | (idKey, None) =>
        let c1 := set_pending (delete idKey (pending c)) c in
        match pending c !! idKey with
        | None => Some c1
        | Some call =>
            let c2 :=
              match protocol.Error res with
              | Some e => set_call_error call (Some (RpcError e)) c1
              | None =>
                  match calls c1 !! call with
                  | Some (mkCall _ _ (Some t) _ _) =>
                      let '(t', err) := json_Unmarshal jsonData t in
                      set_call_error call err (set_call_reply call t' c1)
                  | _ => c1
                  end
              end in
            signal call c2
        end
    end
  else None.

(** One turn of the loop at the end of [receiveLoop], lines 89-93. *)
Definition fail_one (err : GoError) (acc : option Client) (kc : string * CallRef)
  : option Client :=
  match acc with
  | Some c =>
      match signal kc.2 (set_call_error kc.2 (Some err) c) with
      | Some c' => Some (set_pending (delete kc.1 (pending c')) c')
      | None => None
      end
  | None => None
  end.

(** The end of [receiveLoop] after [Decode] failed with [err], lines 87-94:
    every pending call is failed with [err].  The loop runs under the mutex,
    so when it gets through it is one step for every goroutine that takes the
    mutex.  When one of the channels has no room the loop parks inside the
    mutex, having set [shutdown] and completed the entries it visited before;
    that state, in which every later [send] waits for the mutex at line 185,
    has no counterpart here: the result is [None] and no step is made.  The
    definition describes the code in the states where the channel of every
    pending call has room. *)
Definition receive_fail (err : GoError) (c : Client) : option Client :=
  if receiving c then
    foldl (fail_one err)
          (Some (mkClient (encoder c) (seq c) (pending c) (closing c) true
                          (calls c) (chans c) (sending c) false))
          (map_to_list (pending c))
  else None.

(** [func (c *Client) Close() error]; [connErr] is what [c.conn.Close()]
    returns. *)
Definition Close (connErr : option GoError) (c : Client) : Client * option GoError :=
  if closing c then (c, Some (ErrorsNew "client is closing"))
  else (mkClient (encoder c) (seq c) (pending c) true (shutdown c) (calls c)
                 (chans c) (sending c) (receiving c), connErr).

(** The goroutines of a client interleave at the granularity of the blocks
    above.  An [Action] names one block together with what the environment
    contributes to it. *)
Inductive Action : Type :=
| AGoWithID (id : Value) (method : string) (args : option JSON)
            (reply : option Target) (done : option ChanRef)
| AGo (method : string) (args : option JSON) (reply : option Target)
      (done : option ChanRef)
| ACallWithID (id : Value) (method : string) (args : option JSON)
              (reply : option Target)
| ACall (method : string) (args : option JSON) (reply : option Target)
| AWrite (call : CallRef) (err : option GoError)
| AResponse (res : protocol.Response) (jsonData : JSON)
| AReadError (err : GoError)
| AClose (connErr : option GoError)
| AReceive (ch : ChanRef).

Definition act (a : Action) (c : Client) : option Client :=
  match a with
  | AGoWithID id method args reply done =>
      fst <$> (GoWithID id method args reply done c).1
  | AGo method args reply done => fst <$> (Go method args reply done c).1
  | ACallWithID id method args reply =>
      fst <$> (CallWithID id method args reply c).1
  | ACall method args reply => fst <$> (Call_ method args reply c).1
  | AWrite call err => send_finish call err c
  | AResponse res jsonData => receive_response res jsonData c
  | AReadError err => receive_fail err c
  | AClose connErr => Some (Close connErr c).1
  | AReceive ch => receive ch c
  end.

(** One step of the client and its goroutines; a blocked goroutine makes no
    step. *)
Inductive step : Client -> Client -> Prop :=
| step_act (a : Action) (c c' : Client) : act a c = Some c' -> step c c'.

(** The states a client can reach after [Dial]. *)
Inductive reachable : Client -> Prop :=
| reachable_Dial : reachable Dial
| reachable_step (c c' : Client) : reachable c -> step c c' -> reachable c'.

Fixpoint run (l : list Action) (c : Client) : option Client :=
  match l with
  | [] => Some c
  | a :: l' =>
      match act a c with
      | Some c' => run l' c'
      | None => None
      end
  end.


(** * Vocabulary of the statements *)

(** The result and error slots after a sequence of events. *)
Definition state_of (evs : list Event) : Value * option protocol.ErrorObject :=
  foldl (fun st e =>
           match e with
           | EvResult data => (data, st.2)
           | EvError err => (st.1, err)
           | _ => st
           end) (VNil, None) evs.

(** The response [handleRequest] writes for a request that left the result
    and error slots [st]. *)
Definition respond (id : Value) (st : Value * option protocol.ErrorObject)
  : protocol.Response :=
  match st.2 with
  | Some e => createResponse id (box_error e)
  | None => createResponse id st.1
  end.

(** A field of a response is populated when it is not the nil interface,
    respectively not the nil pointer: the fields [omitempty] keeps. *)
Definition result_populated (r : protocol.Response) : Prop :=
  protocol.Result r <> VNil.

Definition error_populated (r : protocol.Response) : Prop :=
  protocol.Error r <> None.

Definition exactly_one_populated (r : protocol.Response) : Prop :=
  (result_populated r /\ ~ error_populated r) \/
  (~ result_populated r /\ error_populated r).

(** A value whose dynamic type is [*protocol.ErrorObject]. *)
Definition is_error_ptr (v : Value) : Prop :=
  match v with VErrorNilPtr | VErrorPtr _ _ _ => True | _ => False end.

(** An event that writes the result or the error slot. *)
Definition is_write (e : Event) : Prop :=
  match e with EvResult _ | EvError _ => True | _ => False end.

(** The sign bit and the exact value of a float; infinities and NaN have no
    value. *)
Definition float_sign (f : spec_float) : bool :=
  match f with
  | S754_zero s | S754_infinity s | S754_finite s _ _ => s
  | S754_nan => false
  end.

Definition float_value (f : spec_float) : option Q :=
  match f with
  | S754_zero _ => Some (inject_Z 0)
  | S754_finite s m e =>
      if 0 <=? e then Some (inject_Z (cond_Zopp s (Z.pos m) * 2 ^ e))
      else Some (Qmake (cond_Zopp s (Z.pos m)) (Z.to_pos (2 ^ (- e))))
  | _ => None
  end.

(** The float [f] lies strictly within one half of the integer [n]. *)
Definition within_half (f : spec_float) (n : Z) : Prop :=
  match float_value f with
  | Some q => (Qabs (q - inject_Z n) < 1 # 2)%Q
  | None => False
  end.

(** The decimal digits of an integer. *)
Definition digits (n : Z) : string := pretty n.

(** [-0.25] as a [float64]. *)
Definition minus_quarter : spec_float := S754_finite true 4503599627370496 (-54).

(** [5.4] as a [float64]. *)
Definition five_point_four : spec_float := S754_finite false 6079859496950170 (-50).

(** The id types [idToKey] has a case for. *)
Definition supported_id (id : Value) : bool :=
  match id with
  | VString _ | VInt _ _ | VFloat _ _ => true
  | _ => false
  end.

(** [call] with its error set. *)
Definition with_error (k : Call) (err : option GoError) : Call :=
  mkCall (call_Method k) (Args k) (Reply k) err (Done k).

(** A channel with room for one more value. *)
Definition has_room (ch : Chan) : Prop := (length (chan_buf ch) < chan_cap ch)%nat.

(** [ch] after one more value was sent on it. *)
Definition sent (ch : Chan) (call : CallRef) : Chan :=
  mkChan (chan_cap ch) (chan_buf ch ++ [call]).

(** The request [send] writes for call [k] with id [id]. *)
Definition request_of (k : Call) (id : Value) : protocol.Request :=
  {| protocol.req_Jsonrpc := "2.0"; protocol.Method := call_Method k;
     protocol.Params := Args k; protocol.ID := id |}.

(** A client right after [Dial] on which [GoWithID] has made its channel
    and its call, before [send]. *)
Definition one_call : Client :=
  (new_call (mkCall "m" None None None 0%nat) (make_chan 10 Dial).1).1.

(** A schedule of the client's goroutines: [GoWithID] registers a call with
    id 1 on a fresh channel, the receive loop's [Decode] fails, and then the
    write of the request fails. *)
Definition broken_connection : list Action :=
  [AGoWithID (VInt KInt 1) "m" None None None;
   AReadError (IOError "connection reset by peer");
   AWrite 0%nat (Some (IOError "broken pipe"))].

(** The same schedule for a call made by [CallWithID], before the write. *)
Definition broken_connection_sync : list Action :=
  [ACallWithID (VInt KInt 1) "m" None None;
   AReadError (IOError "connection reset by peer")].

(** Example servers and requests. *)
Definition serve (method : string) (hs : list HandlerFunc) : Server :=
  default NewServer (Handle NewServer method hs).

Definition request (method : string) (id : Value) : protocol.Request :=
  {| protocol.req_Jsonrpc := "2.0"; protocol.Method := method;
     protocol.Params := None; protocol.ID := id |}.

(** The handler [Listen] registers under ["ping"]. *)
Definition ping_handler : HandlerFunc := CallResult (VString "pong") Return.

(** [func(ctx *Context) {}] *)
Definition idle_handler : HandlerFunc := Return.

(** [func(ctx *Context) { ctx.Next(); ctx.Next() }] *)
Definition twice_handler : HandlerFunc := CallNext (CallNext Return).

(** [func(ctx *Context) { ctx.Result("x") }] *)
Definition x_handler : HandlerFunc := CallResult (VString "x") Return.

(** A property of contexts kept by every method a handler may call. *)
Definition stable (Q : Context -> Prop) : Prop :=
  forall c, Q c ->
    (forall data, Q (Result c data)) /\
    (forall err, Q (Error c err)) /\
    (forall key value, Q (Set_ c key value)).

(** Every [EvEnter] in the history comes right after an [EvNext]. *)
Definition enter_after_next (evs : list Event) : Prop :=
  forall l1 l2 j, evs = l1 ++ EvEnter j :: l2 -> exists l0, l1 = l0 ++ [EvNext].

Definition is_enter (e : Event) : Prop :=
  match e with EvEnter _ => True | _ => False end.

(** The history determines the result and error slots. *)
Definition slots_logged (c : Context) : Prop :=
  state_of (events c) = (responseResult c, responseError c).

(** What [Next] keeps true of a context running the chain [ch] whose
    index is at least [lo]. *)
Definition engine_inv (ch : list HandlerFunc) (req : protocol.Request) (lo : Z)
    (c : Context) : Prop :=
  handlerChain c = ch /\ Request c = req /\ lo <= handlerIdx c /\
  enter_after_next (events c) /\ slots_logged c.


(** * Further definitions *)

(** [func (s *Server) Listen(addr string) error], as far as the registry is
    concerned: [listenErr] is what [net.Listen] returns; on success the
    built-in ["ping"] handler is registered over whatever was there.  The
    listener and the accept goroutine are left out. *)
Definition Listen (listenErr : option GoError) (s : Server) : Server * option GoError :=
  match listenErr with
  | Some e => (s, Some e)
  | None => (default s (Handle s "ping" [ping_handler]), None)
  end.

(** A handler none of whose paths calls [Next]. *)
Fixpoint never_calls_next (h : HandlerFunc) : Prop :=
  match h with
  | Return => True
  | CallNext _ => False
  | CallResult _ k | CallError _ k | CallSet _ _ k => never_calls_next k
  | CallGetResponseError k => forall e, never_calls_next (k e)
  | CallGetResponseResult k => forall v, never_calls_next (k v)
  | CallBind _ k => forall t e, never_calls_next (k t e)
  | CallGet _ k => forall o, never_calls_next (k o)
  | ReadRequest k => forall r, never_calls_next (k r)
  end.

(** The indices of the handlers entered, in the order of entry. *)
Definition entered (evs : list Event) : list nat :=
  omap (fun e => match e with EvEnter i => Some i | _ => None end) evs.

(** The handlers entered so far are those below the cursor, in order. *)
Definition in_order (ch : list HandlerFunc) (c : Context) : Prop :=
  handlerChain c = ch /\ -1 <= handlerIdx c /\
  entered (events c) =
    List.seq 0 (Z.to_nat (Z.min (handlerIdx c + 1) (Z.of_nat (length ch)))).

(** The handlers that have been entered and have not returned yet, the
    innermost first; [None] when a handler returned that was not the
    innermost one. *)
Definition open_step (st : option (list nat)) (e : Event) : option (list nat) :=
  match e with
  | EvEnter i => cons i <$> st
  | EvLeave i =>
      match st with
      | Some (j :: l) => if decide (i = j) then Some l else None
      | _ => None
      end
  | _ => st
  end.

Definition open_handlers (evs : list Event) : option (list nat) :=
  foldl open_step (Some []) evs.

(** The handlers open in the history of [c] are [st]. *)
Definition open_are (st : list nat) (c : Context) : Prop :=
  open_handlers (events c) = Some st.

(** Every call of [Next] but the first one, which [handleRequest] makes, is
    made while a handler is running: the innermost open handler is the one
    that calls. *)
Definition next_has_caller (evs : list Event) : Prop :=
  forall l1 l2, evs = l1 ++ EvNext :: l2 ->
    l1 = [] \/ exists caller rest, open_handlers l1 = Some (caller :: rest).

(** The handler [h], started in [c], returns in [c2] without having called
    [Next]: it runs to its end with a [Next] that never returns. *)
Definition runs_without_next (h : HandlerFunc) (c c2 : Context) : Prop :=
  exec (fun _ => None) h c = Some c2.

(** The error response for [e] keyed to [id]. *)
Definition error_response (id : Value) (e : protocol.ErrorObject) : protocol.Response :=
  {| protocol.Jsonrpc := "2.0"; protocol.Result := VNil;
     protocol.Error := Some e; protocol.resp_ID := id |}.

(** The float [f] has exactly the integer value [n]. *)
Definition float_is_integer (f : spec_float) (n : Z) : Prop :=
  match float_value f with
  | Some q => (q == inject_Z n)%Q
  | None => False
  end.

(** [1.0] as a [float64], and [-3.0]. *)
Definition float_one : spec_float := S754_finite false 4503599627370496 (-52).
Definition float_minus_three : spec_float := S754_finite true 6755399441055744 (-51).

(** A client with one call pending under the key ["1"], made by
    [CallWithID] with a reply variable of type [int]. *)
Definition add_call : Call := mkCall "Arith.Add" None (Some (TInt 0)) None 0%nat.

Definition one_pending : Client :=
  set_pending {[ "1"%string := 0%nat ]} (new_call add_call (make_chan 1 Dial).1).1.

(** The call [call] exists and carries the error [err]. *)
Definition failed_with (err : GoError) (c : Client) (call : CallRef) : Prop :=
  exists k, calls c !! call = Some k /\ call_Error k = Some err.

(** The client is shut down or closing. *)
Definition closed_client (c : Client) : Prop := shutdown c || closing c = true.

(** The client is neither shut down nor closing. *)
Definition open_client (c : Client) : Prop := shutdown c = false /\ closing c = false.

(** The success response with id [id] and result [v]. *)
Definition result_response (id v : Value) : protocol.Response :=
  {| protocol.Jsonrpc := "2.0"; protocol.Result := v;
     protocol.Error := None; protocol.resp_ID := id |}.

(** The call [k] after a response was matched to it: an error response sets
    its error; a success response is decoded into the reply variable, when
    there is one, and sets the error to the outcome of the decoding. *)
Definition completed (k : Call) (res : protocol.Response) (jsonData : JSON) : Call :=
  match protocol.Error res with
  | Some e => with_error k (Some (RpcError e))
  | None =>
      match Reply k with
      | Some t => mkCall (call_Method k) (Args k) (Some (json_Unmarshal jsonData t).1)
                         (json_Unmarshal jsonData t).2 (Done k)
      | None => k
      end
  end.

(** * Properties *)

(** ** The middleware engine always returns *)

Section Engine.

Lemma snoc_case {A : Type} (l : list A) :
  l = [] \/ exists l' x, l = l' ++ [x].
Proof. induction l using rev_ind; eauto. Qed.

Lemma Bind_context (c : Context) (v : Target) : (Bind c v).1.1 = c.
Proof.
  unfold Bind. destruct (protocol.Params (Request c)) as [raw|]; [|reflexivity].
  destruct (json_Unmarshal raw v); reflexivity.
Qed.

(** If [Next] returns and keeps [Q], so does every handler body. *)
Lemma exec_spec (Q : Context -> Prop) (next : Context -> option Context) :
  (forall c, Q c -> exists c', next c = Some c' /\ Q c') ->
  stable Q ->
  forall h c, Q c -> exists c', exec next h c = Some c' /\ Q c'.
Proof.
  intros Hnext Hst h.
  induction h as [|k IH|data k IH|err k IH|k IH|k IH|v k IH|key value k IH|key k IH|k IH];
    intros c Hc; simpl.
  - eauto.
  - destruct (Hnext c Hc) as (c1 & -> & Hc1). eauto.
  - apply IH, Hst, Hc.
  - apply IH, Hst, Hc.
  - apply IH, Hc.
  - apply IH, Hc.
  - pose proof (Bind_context c v) as HB.
    destruct (Bind c v) as [[c1 v1] e1]. simpl in HB. subst c1. apply IH, Hc.
  - apply IH, Hst, Hc.
  - apply IH, Hc.
  - apply IH, Hc.
Qed.

Lemma enter_after_next_snoc (evs : list Event) (e : Event) :
  ~ is_enter e -> enter_after_next evs -> enter_after_next (evs ++ [e]).
Proof.
  intros He H l1 l2 j Heq.
  destruct (snoc_case l2) as [-> | (l2' & x & ->)].
  - apply app_inj_tail in Heq as [_ ->]. destruct He. exact I.
  - rewrite app_comm_cons, app_assoc in Heq.
    apply app_inj_tail in Heq as [Heq _]. eapply H, Heq.
Qed.

Lemma enter_after_next_enter (evs : list Event) (i : nat) :
  enter_after_next (evs ++ [EvNext]) ->
  enter_after_next ((evs ++ [EvNext]) ++ [EvEnter i]).
Proof.
  intros H l1 l2 j Heq.
  destruct (snoc_case l2) as [-> | (l2' & x & ->)].
  - apply app_inj_tail in Heq as [<- _]. eauto.
  - rewrite app_comm_cons, app_assoc in Heq.
    apply app_inj_tail in Heq as [Heq _]. eapply H, Heq.
Qed.

Lemma state_of_snoc (evs : list Event) (e : Event) :
  state_of (evs ++ [e]) =
  match e with
  | EvResult data => (data, (state_of evs).2)
  | EvError err => ((state_of evs).1, err)
  | _ => state_of evs
  end.
Proof. unfold state_of. rewrite foldl_app. reflexivity. Qed.

Lemma engine_inv_stable ch req lo : stable (engine_inv ch req lo).
Proof.
  intros c (Hch & Hrq & Hlo & Hen & Hsl). unfold engine_inv, slots_logged in *.
  repeat split; simpl; try assumption.
  - apply enter_after_next_snoc; [intros []|assumption].
  - rewrite state_of_snoc, Hsl. reflexivity.
  - apply enter_after_next_snoc; [intros []|assumption].
  - rewrite state_of_snoc, Hsl. reflexivity.
Qed.

Lemma engine_inv_log ch req lo c e :
  match e with EvNext | EvLeave _ => True | _ => False end ->
  engine_inv ch req lo c -> engine_inv ch req lo (log_event e c).
Proof.
  intros He (Hch & Hrq & Hlo & Hen & Hsl). unfold engine_inv, slots_logged in *.
  repeat split; simpl; try assumption.
  - apply enter_after_next_snoc; [destruct e; tauto|assumption].
  - rewrite state_of_snoc, Hsl. destruct e; tauto.
Qed.

Lemma engine_inv_weaken ch req lo lo' c :
  lo' <= lo -> engine_inv ch req lo c -> engine_inv ch req lo' c.
Proof. intros Hle (Hch & Hrq & Hlo & H). repeat split; try tauto. lia. Qed.

(** [Next] returns whenever the bound covers the handlers that are left,
    and it moves the index forward. *)
Lemma Next_spec ch req :
  forall fuel lo c,
    -1 <= lo -> Z.of_nat (length ch) <= Z.of_nat fuel + (lo + 1) ->
    engine_inv ch req lo c ->
    exists c', Next fuel c = Some c' /\ engine_inv ch req (lo + 1) c'.
Proof.
  induction fuel as [|fuel IH]; intros lo c Hlo Hfuel Hc.
  - simpl. destruct Hc as (Hch & Hrq & Hidx & Hen & Hsl).
    rewrite Hch. destruct (Z.ltb_spec (handlerIdx c + 1) (Z.of_nat (length ch))); [lia|].
    eexists; split; [reflexivity|].
    apply engine_inv_log; [exact I|].
    unfold engine_inv, slots_logged, set_handlerIdx; simpl. repeat split; try assumption. lia.
  - pose proof Hc as (Hch & Hrq & Hidx & Hen & Hsl).
    assert (Hc1 : engine_inv ch req (handlerIdx c + 1)
                    (log_event EvNext (set_handlerIdx (handlerIdx c + 1) c))).
    { apply engine_inv_log; [exact I|].
      unfold engine_inv, slots_logged, set_handlerIdx; simpl. repeat split; try assumption. lia. }
    cbn [Next]. set (c1 := log_event EvNext (set_handlerIdx (handlerIdx c + 1) c)) in *.
    change (handlerIdx c1) with (handlerIdx c + 1).
    change (handlerChain c1) with (handlerChain c). rewrite Hch.
    destruct (Z.ltb_spec (handlerIdx c + 1) (Z.of_nat (length ch))) as [Hlt|Hge].
    + destruct (Z.ltb_spec (handlerIdx c + 1) 0) as [|_]; [lia|].
      destruct (lookup_lt_is_Some_2 ch (Z.to_nat (handlerIdx c + 1))) as [h Hh]; [lia|].
      rewrite Hh.
      assert (Hc2 : engine_inv ch req (handlerIdx c + 1)
                      (log_event (EvEnter (Z.to_nat (handlerIdx c + 1))) c1)).
      { destruct Hc1 as (? & ? & ? & Hen1 & Hsl1).
        unfold engine_inv, slots_logged in *; simpl in *. repeat split; try assumption.
        - apply enter_after_next_enter. exact Hen1.
        - rewrite state_of_snoc. exact Hsl1. }
      destruct (exec_spec (engine_inv ch req (handlerIdx c + 1)) (Next fuel))
        with (h := h) (c := log_event (EvEnter (Z.to_nat (handlerIdx c + 1))) c1)
        as (c2 & -> & Hc2').
      * intros c0 Hc0. destruct (IH (handlerIdx c + 1) c0) as (c0' & ? & ?); [lia|lia|exact Hc0|].
        exists c0'. split; [assumption|]. eapply engine_inv_weaken; [|eassumption]. lia.
      * apply engine_inv_stable.
      * exact Hc2.
      * eexists; split; [reflexivity|].
        apply engine_inv_log; [exact I|]. eapply engine_inv_weaken; [|eassumption]. lia.
    + eexists; split; [reflexivity|].
      eapply engine_inv_weaken; [|exact Hc1]. lia.
Qed.

End Engine.

(** ** Request dispatch *)

Section Dispatch.

Lemma Value_nil_dec (v : Value) : {v = VNil} + {v <> VNil}.
Proof. destruct v; (left; reflexivity) || (right; discriminate). Qed.

Lemma box_error_response (id : Value) (e : protocol.ErrorObject) :
  createResponse id (box_error e) =
  {| protocol.Jsonrpc := "2.0"; protocol.Result := VNil;
     protocol.Error := Some e; protocol.resp_ID := id |}.
Proof. destruct e; reflexivity. Qed.

Lemma createResponse_id (id data : Value) :
  protocol.resp_ID (createResponse id data) = id.
Proof. destruct data; reflexivity. Qed.

Lemma createResponse_not_both (id data : Value) :
  ~ (result_populated (createResponse id data) /\
     error_populated (createResponse id data)).
Proof.
  unfold result_populated, error_populated.
  destruct data; simpl; intros [H1 H2]; congruence.
Qed.

(** The three ways through [handleRequest]. *)
Lemma handleRequest_cases s enc req :
  (protocol.ID req = VNil /\
   handleRequest s enc req =
     Some (enc ++ [createResponse VNil (box_error (protocol.ParseError VNil))], []))
  \/
  (protocol.ID req <> VNil /\
   router_find (srv_router s) (protocol.Method req) = None /\
   handleRequest s enc req =
     Some (enc ++ [createResponse (protocol.ID req)
                     (box_error (protocol.MethodNotFoundError
                                   (VString (protocol.Method req))))], []))
  \/
  (exists entry ctx',
      protocol.ID req <> VNil /\
      router_find (srv_router s) (protocol.Method req) = Some entry /\
      Next (length (globalMiddlewares s ++ chain entry))
           (newContext req (globalMiddlewares s ++ chain entry)) = Some ctx' /\
      enter_after_next (events ctx') /\
      handleRequest s enc req =
        Some (enc ++ [respond (protocol.ID req) (state_of (events ctx'))],
              events ctx')).
Proof.
  destruct (Value_nil_dec (protocol.ID req)) as [Hnil|Hid].
  { left. split; [assumption|]. unfold handleRequest. rewrite Hnil. reflexivity. }
  right.
  assert (Hh : handleRequest s enc req =
    match router_find (srv_router s) (protocol.Method req) with
    | None =>
        Some (writeResponse enc (protocol.ID req)
                (box_error (protocol.MethodNotFoundError
                              (VString (protocol.Method req)))), [])
    | Some entry =>
        match Next (length (globalMiddlewares s ++ chain entry))
                   (newContext req (globalMiddlewares s ++ chain entry)) with
        | Some ctx' =>
            match responseError ctx' with
            | Some e =>
                Some (writeResponse enc (protocol.ID req) (box_error e), events ctx')
            | None =>
                Some (writeResponse enc (protocol.ID req) (responseResult ctx'),
                      events ctx')
            end
        | None => None
        end
    end).
  { unfold handleRequest. destruct (protocol.ID req); try reflexivity. congruence. }
  rewrite Hh. clear Hh.
  destruct (router_find (srv_router s) (protocol.Method req)) as [entry|].
  - right. set (fc := globalMiddlewares s ++ chain entry).
    destruct (Next_spec fc req (length fc) (-1) (newContext req fc))
      as (ctx' & HN & _ & _ & _ & Hen & Hsl).
    + lia.
    + lia.
    + unfold engine_inv, slots_logged, newContext; simpl.
      repeat split; try reflexivity; try lia.
      intros l1 l2 j Heq. destruct l1; discriminate.
    + exists entry, ctx'. rewrite HN. repeat split; try assumption.
      unfold respond, slots_logged in *. rewrite Hsl. simpl.
      destruct (responseError ctx'); reflexivity.
  - left. repeat split; assumption.
Qed.

Lemma state_of_app_no_write (l1 l2 : list Event) :
  Forall (fun e => ~ is_write e) l2 -> state_of (l1 ++ l2) = state_of l1.
Proof.
  induction l2 as [|e l2 IH] using rev_ind; intros H.
  - rewrite app_nil_r. reflexivity.
  - apply Forall_app in H as [H2 He]. rewrite app_assoc, state_of_snoc, (IH H2).
    apply Forall_inv in He. destruct e; simpl in He; tauto || reflexivity.
Qed.

(** Inside a stretch of history without [EvNext] that does not start right
    after one, no handler is entered. *)
Lemma no_enter_without_next (a seg rest : list Event) (x : Event) :
  enter_after_next (a ++ x :: seg ++ rest) ->
  x <> EvNext -> EvNext ∉ seg -> forall j, EvEnter j ∉ seg.
Proof.
  intros Hen Hx Hseg j Hj.
  apply list_elem_of_split in Hj as (s1 & s2 & ->).
  destruct (Hen (a ++ x :: s1) (s2 ++ rest) j) as [l0 Hl0].
  { repeat (rewrite <- app_assoc; simpl). reflexivity. }
  destruct (snoc_case s1) as [-> | (s1' & y & ->)].
  - apply app_inj_tail in Hl0 as [_ ->]. congruence.
  - rewrite app_comm_cons, app_assoc in Hl0.
    apply app_inj_tail in Hl0 as [_ ->].
    apply Hseg. rewrite elem_of_app. left. rewrite elem_of_app. right.
    apply list_elem_of_singleton. reflexivity.
Qed.

(** [handleRequest] always returns. *)
Lemma handleRequest_returns s enc req : is_Some (handleRequest s enc req).
Proof.
  destruct (handleRequest_cases s enc req)
    as [[_ ->]|[(_ & _ & ->)|(entry & ctx' & _ & _ & _ & _ & ->)]]; eauto.
Qed.

End Dispatch.

(** ** Responses of the server *)

(** C1, as stated, fails: a registered handler that sets neither a result nor
    an error makes the server write a response with neither field populated. *)
Lemma handleRequest_neither_populated :
  protocol.ID (request "noop" (VString "a")) <> VNil /\
  router_find (srv_router (serve "noop" [idle_handler])) "noop"
    = Some (mkHandlerEntry [idle_handler]) /\
  handleRequest (serve "noop" [idle_handler]) [] (request "noop" (VString "a"))
    = Some ([{| protocol.Jsonrpc := "2.0"; protocol.Result := VNil;
                protocol.Error := None; protocol.resp_ID := VString "a" |}],
            [EvNext; EvEnter 0; EvLeave 0]) /\
  ~ exactly_one_populated
      {| protocol.Jsonrpc := "2.0"; protocol.Result := VNil;
         protocol.Error := None; protocol.resp_ID := VString "a" |}.
Proof.
  split; [discriminate|]. split; [vm_compute; reflexivity|].
  split; [vm_compute; reflexivity|].
  unfold exactly_one_populated, result_populated, error_populated. simpl.
  intros [[H _]|[_ H]]; apply H; reflexivity.
Qed.

(** C1, amended: for a request with a registered method and a non-null id the
    server writes one response; its id is the request's id and it never has
    both fields populated.  The response is built from the result and error
    slots the chain left: the error is populated exactly when the error slot
    is non-nil or, with a nil error slot, the result slot holds a non-nil
    [*protocol.ErrorObject]; the result is populated exactly when the error
    slot is nil and the result slot holds a non-nil value of another type.
    When the chain leaves both slots nil, neither field is populated. *)
Theorem handleRequest_response (s : Server) (enc : list protocol.Response)
    (req : protocol.Request) (entry : handlerEntry) :
  protocol.ID req <> VNil ->
  router_find (srv_router s) (protocol.Method req) = Some entry ->
  exists resp evs,
    handleRequest s enc req = Some (enc ++ [resp], evs) /\
    resp = respond (protocol.ID req) (state_of evs) /\
    protocol.resp_ID resp = protocol.ID req /\
    ~ (result_populated resp /\ error_populated resp) /\
    (error_populated resp <->
       (state_of evs).2 <> None \/
       exists code message data, (state_of evs).1 = VErrorPtr code message data) /\
    (result_populated resp <->
       (state_of evs).2 = None /\ (state_of evs).1 <> VNil /\
       ~ is_error_ptr (state_of evs).1) /\
    (state_of evs = (VNil, None) ->
       ~ result_populated resp /\ ~ error_populated resp).
Proof.
  intros Hid Hfind.
  destruct (handleRequest_cases s enc req)
    as [[Hnil _]|[(_ & Hnone & _)|(entry' & ctx' & _ & _ & _ & _ & Hh)]];
    [congruence|congruence|].
  exists (respond (protocol.ID req) (state_of (events ctx'))), (events ctx').
  split; [exact Hh|]. split; [reflexivity|].
  unfold respond, result_populated, error_populated.
  destruct (state_of (events ctx')) as [res [e|]]; cbn [snd fst].
  - rewrite box_error_response. simpl.
    split; [reflexivity|]. split; [intros [H _]; congruence|].
    split; [split; [intros _; left; congruence|congruence]|].
    split; [split; [congruence|intros [H _]; congruence]|].
    intros H; congruence.
  - split; [apply createResponse_id|].
    split; [apply createResponse_not_both|].
    split; [|split].
    + destruct res; simpl; split; try congruence;
        try (intros [H|(?&?&?&H)]; congruence).
      intros _. right. eauto.
    + destruct res; simpl; split; try congruence;
        try (intros (_&H&_); congruence);
        try (intros (_&_&H); exfalso; apply H; exact I);
        try (intros _; repeat split; [discriminate|tauto]).
    + intros H. injection H as ->. simpl. split; congruence.
Qed.

Lemma handleRequest_response_witness :
  exists resp evs,
    handleRequest (serve "ping" [ping_handler]) [] (request "ping" (VInt KInt 7))
      = Some ([] ++ [resp], evs) /\
    resp = respond (VInt KInt 7) (state_of evs) /\
    protocol.resp_ID resp = VInt KInt 7 /\
    ~ (result_populated resp /\ error_populated resp) /\
    (error_populated resp <->
       (state_of evs).2 <> None \/
       exists code message data, (state_of evs).1 = VErrorPtr code message data) /\
    (result_populated resp <->
       (state_of evs).2 = None /\ (state_of evs).1 <> VNil /\
       ~ is_error_ptr (state_of evs).1) /\
    (state_of evs = (VNil, None) ->
       ~ result_populated resp /\ ~ error_populated resp).
Proof.
  apply (handleRequest_response (serve "ping" [ping_handler]) []
           (request "ping" (VInt KInt 7)) (mkHandlerEntry [ping_handler])).
  - discriminate.
  - vm_compute. reflexivity.
Defined.

(** ** Short-circuiting the chain *)

(** C2, as stated, fails: in the chain [twice; idle; x] the handler at index 1
    returns without calling [Next], the handler at index 0 then calls [Next]
    again, the handler at index 2 runs, and the response carries the result
    it set. *)
Lemma later_handler_after_short_circuit :
  exists post,
    handleRequest (serve "m" [twice_handler; idle_handler; x_handler]) []
                  (request "m" (VString "a"))
      = Some ([{| protocol.Jsonrpc := "2.0"; protocol.Result := VString "x";
                  protocol.Error := None; protocol.resp_ID := VString "a" |}],
              [EvNext; EvEnter 0; EvNext] ++ EvEnter 1 :: [] ++ EvLeave 1 :: post) /\
    EvEnter 2 ∈ post /\
    respond (VString "a") (state_of ([EvNext; EvEnter 0; EvNext] ++ [EvEnter 1]))
      <> {| protocol.Jsonrpc := "2.0"; protocol.Result := VString "x";
            protocol.Error := None; protocol.resp_ID := VString "a" |}.
Proof.
  exists [EvNext; EvEnter 2; EvResult (VString "x"); EvLeave 2; EvLeave 0].
  split; [vm_compute; reflexivity|]. split.
  - apply list_elem_of_In. simpl. tauto.
  - vm_compute. discriminate.
Qed.

(** ** Requests that are answered before dispatch *)

(** C5: a request whose id is null or absent is answered with a ParseError
    response (code -32700) carrying a null id, and no handler is invoked. *)
Theorem null_id_parse_error (s : Server) (enc : list protocol.Response)
    (req : protocol.Request) :
  protocol.ID req = VNil ->
  handleRequest s enc req =
    Some (enc ++ [{| protocol.Jsonrpc := "2.0"; protocol.Result := VNil;
                     protocol.Error :=
                       Some {| protocol.Code := -32700;
                               protocol.Message := "Parse error";
                               protocol.Data := VNil |};
                     protocol.resp_ID := VNil |}], []).
Proof.
  intros Hnil.
  destruct (handleRequest_cases s enc req)
    as [[_ Hh]|[(Hid & _)|(entry & ctx' & Hid & _)]]; [|congruence|congruence].
  rewrite Hh. reflexivity.
Qed.

Lemma null_id_parse_error_witness :
  handleRequest (serve "ping" [ping_handler]) [] (request "ping" VNil) =
    Some ([] ++ [{| protocol.Jsonrpc := "2.0"; protocol.Result := VNil;
                    protocol.Error :=
                      Some {| protocol.Code := -32700;
                              protocol.Message := "Parse error";
                              protocol.Data := VNil |};
                    protocol.resp_ID := VNil |}], []).
Proof.
  apply (null_id_parse_error (serve "ping" [ping_handler]) [] (request "ping" VNil)).
  reflexivity.
Defined.

(** C6: a request with a non-null id whose method is not registered is
    answered with an error response keyed to its id, with code -32601 and
    the method name as data, and no handler is invoked. *)
Theorem unknown_method_error (s : Server) (enc : list protocol.Response)
    (req : protocol.Request) :
  protocol.ID req <> VNil ->
  router_find (srv_router s) (protocol.Method req) = None ->
  handleRequest s enc req =
    Some (enc ++ [{| protocol.Jsonrpc := "2.0"; protocol.Result := VNil;
                     protocol.Error :=
                       Some {| protocol.Code := -32601;
                               protocol.Message := "Method not found";
                               protocol.Data := VString (protocol.Method req) |};
                     protocol.resp_ID := protocol.ID req |}], []).
Proof.
  intros Hid Hfind.
  destruct (handleRequest_cases s enc req)
    as [[Hnil _]|[(_ & _ & Hh)|(entry & ctx' & _ & Hsome & _)]]; [congruence| |congruence].
  rewrite Hh. reflexivity.
Qed.

Lemma unknown_method_error_witness :
  handleRequest (serve "ping" [ping_handler]) [] (request "Arith.Add" (VInt KInt 3)) =
    Some ([] ++ [{| protocol.Jsonrpc := "2.0"; protocol.Result := VNil;
                    protocol.Error :=
                      Some {| protocol.Code := -32601;
                              protocol.Message := "Method not found";
                              protocol.Data := VString "Arith.Add" |};
                    protocol.resp_ID := VInt KInt 3 |}], []).
Proof.
  apply (unknown_method_error (serve "ping" [ping_handler]) []
           (request "Arith.Add" (VInt KInt 3))).
  - discriminate.
  - vm_compute. reflexivity.
Defined.

(** ** Binding the parameters *)

(** C9, as stated, fails: a payload that does not fit the target makes [Bind]
    return the decoder's [*json.UnmarshalTypeError], which is not an
    [ErrorObject] and carries no code. *)
Lemma Bind_incompatible_not_rpc_error :
  let c := newContext {| protocol.req_Jsonrpc := "2.0"; protocol.Method := "m";
                         protocol.Params := Some (JString "abc");
                         protocol.ID := VString "a" |} [] in
  (json_Unmarshal (JString "abc") (TInt 0)).2 <> None /\
  (Bind c (TInt 0)).2 = Some (UnmarshalTypeError "string" "int") /\
  ~ exists e, (Bind c (TInt 0)).2 = Some (RpcError e) /\ protocol.Code e = -32602.
Proof.
  simpl. split; [discriminate|]. split; [reflexivity|].
  intros (e & H & _). discriminate.
Qed.

(** C9, amended: [Bind] never changes the context.  When the params are
    absent it leaves the target alone and fails with the InvalidParams
    [ErrorObject] (code -32602); when they are present it returns what
    [json.Unmarshal] returns: no error when the payload decodes, and
    otherwise the decoder's own error, which is not an [ErrorObject]. *)
Theorem Bind_outcome (c : Context) (v : Target) :
  (Bind c v).1.1 = c /\
  responseResult (Bind c v).1.1 = responseResult c /\
  responseError (Bind c v).1.1 = responseError c /\
  match protocol.Params (Request c) with
  | None =>
      (Bind c v).1.2 = v /\
      (Bind c v).2 = Some (RpcError {| protocol.Code := -32602;
                                       protocol.Message := "Invalid params";
                                       protocol.Data := VString "params are null" |})
  | Some raw =>
      (Bind c v).1.2 = (json_Unmarshal raw v).1 /\
      (Bind c v).2 = (json_Unmarshal raw v).2 /\
      forall e, (Bind c v).2 <> Some (RpcError e)
  end.
Proof.
  rewrite Bind_context. repeat split.
  unfold Bind. destruct (protocol.Params (Request c)) as [raw|]; [|split; reflexivity].
  destruct (json_Unmarshal raw v) as [v' err] eqn:Hu. simpl.
  repeat split. intros e He. subst err.
  unfold json_Unmarshal in Hu.
  destruct raw, v; try discriminate; try (injection Hu as _ Hu; discriminate).
  destruct (in_int64 n); discriminate.
Qed.

(** ** Lookup keys *)

Section Keys.

Lemma round_half_even_near (m d n : Z) :
  0 < 2 ^ d -> 2 * Z.abs (m - n * 2 ^ d) < 2 ^ d -> round_half_even m d = n.
Proof.
  intros Hd Hn. unfold round_half_even.
  pose proof (Z.div_mod m (2 ^ d) ltac:(lia)) as Hdm.
  pose proof (Z.mod_pos_bound m (2 ^ d) Hd) as Hr.
  set (q := m / 2 ^ d) in *. set (r := m mod 2 ^ d) in *. set (D := 2 ^ d) in *.
  assert (Hq : q = n \/ q = n - 1) by nia.
  destruct (Z.compare_spec (2 * r) D) as [He|Hl|Hg]; destruct Hq as [->| ->]; nia.
Qed.

Lemma within_half_int (a n : Z) :
  (Qabs (inject_Z a - inject_Z n) < 1 # 2)%Q -> a = n.
Proof.
  unfold Qlt, Qabs, Qminus, Qplus, Qopp, inject_Z. simpl. lia.
Qed.

Lemma within_half_frac (a n : Z) (D : positive) :
  (Qabs (Qmake a D - inject_Z n) < 1 # 2)%Q -> 2 * Z.abs (a - n * Z.pos D) < Z.pos D.
Proof.
  unfold Qlt, Qabs, Qminus, Qplus, Qopp, inject_Z. simpl.
  rewrite Pos.mul_1_r. lia.
Qed.

(** A float with a clear sign bit within one half of [n] prints as the
    digits of [n]. *)
Lemma sprintf_f0_near (f : spec_float) (n : Z) :
  float_sign f = false -> within_half f n -> sprintf_f0 f = digits n.
Proof.
  unfold within_half. destruct f as [s|s| |s m e]; simpl; intros Hs Hw; subst; try tauto.
  - apply within_half_int in Hw. subst n. reflexivity.
  - unfold round_magnitude, digits. simpl in Hw.
    destruct (Z.leb_spec 0 e) as [He|He].
    + apply within_half_int in Hw. subst n. reflexivity.
    + assert (Hp : 0 < 2 ^ (- e)) by (apply Z.pow_pos_nonneg; lia).
      apply within_half_frac in Hw. rewrite Z2Pos.id in Hw by exact Hp.
      rewrite (round_half_even_near _ _ n Hp Hw). reflexivity.
Qed.

End Keys.

(** C10, as stated, fails at [n = 0]: the float [-0.25] lies within 0.5 of 0
    but its key is ["-0"], not the key ["0"] of the integer 0 and of the
    string ["0"]. *)
Lemma minus_quarter_key :
  bounded 53 1024 4503599627370496 (-54) = true /\
  within_half minus_quarter 0 /\
  idToKey (VFloat KFloat64 minus_quarter) = ("-0"%string, None) /\
  idToKey (VInt KInt 0) = ("0"%string, None) /\
  idToKey (VString (digits 0)) = ("0"%string, None) /\
  idToKey (VFloat KFloat64 minus_quarter) <> idToKey (VInt KInt 0).
Proof.
  split; [vm_compute; reflexivity|]. split; [vm_compute; reflexivity|].
  split; [vm_compute; reflexivity|]. split; [vm_compute; reflexivity|].
  split; [vm_compute; reflexivity|]. vm_compute. discriminate.
Qed.

(** C10, amended: [idToKey] is not injective.  For every nonnegative integer
    [n], the integer id [n], the string id made of the decimal digits of [n]
    and every float id with a clear sign bit that lies strictly within 0.5
    of [n] are distinct ids with the same lookup key, the digits of [n]. *)
Theorem idToKey_collisions (n : Z) (ik : IntKind) (fk : FloatKind) (f : spec_float) :
  0 <= n -> float_sign f = false -> within_half f n ->
  idToKey (VInt ik n) = (digits n, None) /\
  idToKey (VString (digits n)) = (digits n, None) /\
  idToKey (VFloat fk f) = (digits n, None) /\
  VInt ik n <> VString (digits n) /\
  VInt ik n <> VFloat fk f /\
  VString (digits n) <> VFloat fk f.
Proof.
  intros _ Hs Hw. repeat split; try discriminate.
  simpl. rewrite (sprintf_f0_near f n Hs Hw). reflexivity.
Qed.

Lemma idToKey_collisions_witness :
  idToKey (VInt KInt 5) = (digits 5, None) /\
  idToKey (VString (digits 5)) = (digits 5, None) /\
  idToKey (VFloat KFloat64 five_point_four) = (digits 5, None) /\
  VInt KInt 5 <> VString (digits 5) /\
  VInt KInt 5 <> VFloat KFloat64 five_point_four /\
  VString (digits 5) <> VFloat KFloat64 five_point_four.
Proof.
  apply (idToKey_collisions 5 KInt KFloat64 five_point_four).
  - lia.
  - reflexivity.
  - vm_compute. reflexivity.
Defined.

(** ** The send path of the client *)

Section Send.

(** Setting the error of a call and signalling its channel. *)
Lemma fail_call (call : CallRef) (k : Call) (ch : Chan) (e : option GoError)
    (c : Client) :
  calls c !! call = Some k -> chans c !! Done k = Some ch -> has_room ch ->
  exists c',
    signal call (set_call_error call e c) = Some c' /\
    encoder c' = encoder c /\ pending c' = pending c /\ sending c' = sending c /\
    shutdown c' = shutdown c /\ closing c' = closing c /\
    calls c' !! call = Some (with_error k e) /\
    chans c' !! Done k = Some (sent ch call).
Proof.
  intros Hk Hch Hroom. unfold signal, set_call_error. simpl.
  rewrite lookup_alter_eq, Hk. simpl. rewrite Hch.
  destruct (Nat.ltb_spec (length (chan_buf ch)) (chan_cap ch)) as [_|Hge];
    [|unfold has_room in Hroom; lia].
  eexists. split; [reflexivity|]. simpl.
  rewrite lookup_alter_eq, Hk, lookup_insert_eq. repeat split.
Qed.

Lemma supported_idToKey (id : Value) :
  supported_id id = false ->
  idToKey id = (""%string,
                Some (ErrorsNew ("jsonrpc2: unsupported id type '" +:+ type_name id
                                 +:+ "' for map key"))).
Proof. destruct id; simpl; intros H; try discriminate; reflexivity. Qed.

Lemma send_begin_open (id : Value) (call : CallRef) (c : Client) :
  id <> VNil -> shutdown c = false -> closing c = false ->
  send_begin id call c =
  match idToKey id with
  | (_, Some err) => returned (signal call (set_call_error call (Some err) c))
  | (idKey, None) =>
      Some (set_sending (<[call := (id, idKey)]> (sending c))
              (set_pending (<[idKey := call]> (pending c)) c), true)
  end.
Proof.
  intros Hid Hs Hc. unfold send_begin. rewrite Hs, Hc.
  destruct id; try reflexivity. congruence.
Qed.

Lemma send_begin_closed (id : Value) (call : CallRef) (c : Client) :
  id <> VNil -> shutdown c || closing c = true ->
  send_begin id call c =
  returned (signal call
    (set_call_error call (Some (ErrorsNew "client is shut down or closing")) c)).
Proof.
  intros Hid Hs. unfold send_begin. rewrite Hs.
  destruct id; try reflexivity. congruence.
Qed.

End Send.

(** C7, as stated, fails: a float id with a fractional part is accepted.  The
    call with id 5.4 is registered under the key ["5"] and its request is
    written to the connection. *)
Lemma fractional_float_id_accepted :
  bounded 53 1024 6079859496950170 (-50) = true /\
  (exists q, float_value five_point_four = Some q /\
             (inject_Z 5 < q)%Q /\ (q < inject_Z 6)%Q) /\
  exists c1 c2,
    GoWithID (VFloat KFloat64 five_point_four) "m" None None None Dial
      = (Some (c1, true), 0%nat) /\
    pending c1 !! "5"%string = Some 0%nat /\
    send_finish 0%nat None c1 = Some c2 /\
    encoder c2 = [{| protocol.req_Jsonrpc := "2.0"; protocol.Method := "m";
                     protocol.Params := None;
                     protocol.ID := VFloat KFloat64 five_point_four |}] /\
    pending c2 !! "5"%string = Some 0%nat /\
    calls c2 !! 0%nat = Some (mkCall "m" None None None 0%nat) /\
    chans c2 !! 0%nat = Some (mkChan 10 []).
Proof.
  split; [vm_compute; reflexivity|]. split.
  { eexists. split; [reflexivity|]. split; vm_compute; reflexivity. }
  eexists. eexists. split; [vm_compute; reflexivity|].
  split; [vm_compute; reflexivity|]. split; [vm_compute; reflexivity|].
  repeat split; vm_compute; reflexivity.
Qed.

(** C7, amended: a call whose id is of a type [idToKey] has no case for (the
    null id, a boolean, any type other than strings, integers and floats) is
    rejected locally: nothing is written to the connection, the pending map
    is left as it was, and the call is completed on its channel with an
    error, which names the reason when the client is open.  Float ids are
    supported, with or without a fractional part. *)
Theorem unsupported_id_rejected (id : Value) (call : CallRef) (k : Call) (ch : Chan)
    (err : option GoError) (c : Client) :
  supported_id id = false ->
  calls c !! call = Some k -> chans c !! Done k = Some ch -> has_room ch ->
  exists e c',
    send id call err c = Some c' /\
    encoder c' = encoder c /\ pending c' = pending c /\ sending c' = sending c /\
    calls c' !! call = Some (with_error k (Some e)) /\
    chans c' !! Done k = Some (sent ch call) /\
    (id = VNil ->
     e = ErrorsNew "jsonrpc2: request id cannot be null for a call that expects a reply") /\
    (id <> VNil -> shutdown c = false -> closing c = false ->
     e = ErrorsNew ("jsonrpc2: unsupported id type '" +:+ type_name id
                    +:+ "' for map key")).
Proof.
  intros Hsup Hk Hch Hroom. unfold send.
  destruct (Value_nil_dec id) as [->|Hid].
  - destruct (fail_call call k ch
                (Some (ErrorsNew "jsonrpc2: request id cannot be null for a call that expects a reply"))
                c Hk Hch Hroom)
      as (c' & Hsig & He & Hp & Hsd & _ & _ & Hc & Hd).
    exists (ErrorsNew "jsonrpc2: request id cannot be null for a call that expects a reply"), c'.
    simpl. rewrite Hsig. simpl.
    split; [reflexivity|]. do 5 (split; [assumption|]).
    split; [reflexivity|congruence].
  - destruct (shutdown c || closing c) eqn:Hcl.
    + destruct (fail_call call k ch (Some (ErrorsNew "client is shut down or closing"))
                  c Hk Hch Hroom)
        as (c' & Hsig & He & Hp & Hsd & _ & _ & Hc & Hd).
      exists (ErrorsNew "client is shut down or closing"), c'.
      rewrite (send_begin_closed id call c Hid Hcl), Hsig. simpl.
      split; [reflexivity|]. do 5 (split; [assumption|]).
      split; [congruence|].
      intros _ Hs Hc'. rewrite Hs, Hc' in Hcl. discriminate.
    + apply orb_false_iff in Hcl as [Hs Hc'].
      destruct (fail_call call k ch
                  (Some (ErrorsNew ("jsonrpc2: unsupported id type '" +:+ type_name id
                                    +:+ "' for map key")))
                  c Hk Hch Hroom)
        as (c' & Hsig & He & Hp & Hsd & _ & _ & Hc & Hd).
      exists (ErrorsNew ("jsonrpc2: unsupported id type '" +:+ type_name id
                         +:+ "' for map key")), c'.
      rewrite (send_begin_open id call c Hid Hs Hc'), (supported_idToKey id Hsup), Hsig.
      simpl. split; [reflexivity|]. do 5 (split; [assumption|]).
      split; [congruence|reflexivity].
Qed.

Lemma unsupported_id_rejected_witness :
  exists e c',
    send (VBool true) 0%nat None one_call = Some c' /\
    encoder c' = encoder one_call /\ pending c' = pending one_call /\
    sending c' = sending one_call /\
    calls c' !! 0%nat = Some (with_error (mkCall "m" None None None 0%nat) (Some e)) /\
    chans c' !! Done (mkCall "m" None None None 0%nat) = Some (sent (mkChan 10 []) 0%nat) /\
    (VBool true = VNil ->
     e = ErrorsNew "jsonrpc2: request id cannot be null for a call that expects a reply") /\
    (VBool true <> VNil -> shutdown one_call = false -> closing one_call = false ->
     e = ErrorsNew ("jsonrpc2: unsupported id type '" +:+ type_name (VBool true)
                    +:+ "' for map key")).
Proof.
  apply (unsupported_id_rejected (VBool true) 0%nat (mkCall "m" None None None 0%nat)
           (mkChan 10 []) None one_call).
  - reflexivity.
  - vm_compute. reflexivity.
  - vm_compute. reflexivity.
  - unfold has_room. simpl. lia.
Defined.

(** Running a schedule from a reachable state gives a reachable state. *)
Lemma run_reachable (l : list Action) :
  forall c c', reachable c -> run l c = Some c' -> reachable c'.
Proof.
  induction l as [|a l IH]; intros c c' Hc Hrun; simpl in Hrun.
  - injection Hrun as <-. exact Hc.
  - destruct (act a c) as [c1|] eqn:Ha; [|discriminate].
    eapply IH; [|exact Hrun]. eapply reachable_step; [exact Hc|].
    econstructor. exact Ha.
Qed.




(** ** Completion signals *)

(** C3 fails on the code.  A call is registered by [GoWithID] with a fresh
    channel; the connection breaks, the receive loop fails every pending call
    and signals this one; then the write of the request fails and [send]
    signals the same call again: its channel holds two completion signals. *)
Theorem two_completion_signals :
  exists c,
    run broken_connection Dial = Some c /\
    reachable c /\
    Done <$> calls c !! 0%nat = Some 0%nat /\
    chans c !! 0%nat = Some (mkChan 10 [0%nat; 0%nat]) /\
    signals_on 0%nat 0%nat c = 2%nat.
Proof.
  destruct (run broken_connection Dial) as [c|] eqn:Hrun;
    [|vm_compute in Hrun; discriminate].
  exists c. split; [reflexivity|].
  split; [exact (run_reachable broken_connection Dial c reachable_Dial Hrun)|].
  vm_compute in Hrun. injection Hrun as <-.
  split; [reflexivity|]. split; reflexivity.
Qed.

(** With the channel of capacity 1 that [CallWithID] makes, the second
    signal cannot be sent: after the receive loop has failed the call, the
    failed write leaves [send], and with it the caller of [CallWithID], blocked
    on a full channel that only the caller itself would empty. *)
Lemma CallWithID_blocks_in_send :
  exists c,
    run broken_connection_sync Dial = Some c /\
    chans c !! 0%nat = Some (mkChan 1 [0%nat]) /\
    act (AWrite 0%nat (Some (IOError "broken pipe"))) c = None.
Proof.
  destruct (run broken_connection_sync Dial) as [c|] eqn:Hrun;
    [|vm_compute in Hrun; discriminate].
  exists c. split; [reflexivity|].
  vm_compute in Hrun. injection Hrun as <-.
  split; reflexivity.
Qed.

(** * Further properties *)

(** ** The method registry *)

(** X1: [add] fails exactly on an empty chain; after it succeeded, [find]
    returns the chain just registered for that method (replacing any earlier
    one) and what it returned before for every other method. *)
Theorem router_add_find (r : router) (method : string) (hs : list HandlerFunc) :
  (router_add r method hs = None <-> hs = []) /\
  forall r', router_add r method hs = Some r' ->
    router_find r' method = Some (mkHandlerEntry hs) /\
    forall other, other <> method -> router_find r' other = router_find r other.
Proof.
  split.
  - destruct hs; simpl; split; congruence.
  - intros r' Hadd. destruct hs as [|h hs]; [discriminate|].
    injection Hadd as <-. unfold router_find. simpl. split.
    + apply lookup_insert_eq.
    + intros other Hne. apply lookup_insert_ne. congruence.
Qed.

(** ** The request context *)

(** X2: a value stored with [Set] is what [Get] returns for that key, other
    keys keep what they had, a fresh context has no keys, and [Set] touches
    neither the result nor the error slot nor the cursor. *)
Theorem Set_Get (c : Context) (key other : string) (value : Value)
    (req : protocol.Request) (ch : list HandlerFunc) :
  Get (Set_ c key value) key = Some value /\
  (other <> key -> Get (Set_ c key value) other = Get c other) /\
  Get (newContext req ch) key = None /\
  responseResult (Set_ c key value) = responseResult c /\
  responseError (Set_ c key value) = responseError c /\
  handlerIdx (Set_ c key value) = handlerIdx c.
Proof.
  unfold Get, Set_. simpl. split; [apply lookup_insert_eq|].
  split; [intros Hne; apply lookup_insert_ne; congruence|].
  split; [apply lookup_empty|]. repeat split.
Qed.

(** At the end of the chain [Next] only advances the cursor. *)
Lemma Next_at_end (fuel : nat) (c : Context) :
  Z.of_nat (length (handlerChain c)) <= handlerIdx c + 1 ->
  Next fuel c = Some (log_event EvNext (set_handlerIdx (handlerIdx c + 1) c)).
Proof.
  intros Hend.
  assert (H : (handlerIdx c + 1 <? Z.of_nat (length (handlerChain c))) = false)
    by (apply Z.ltb_ge; exact Hend).
  destruct fuel; simpl; rewrite H; reflexivity.
Qed.

(** X3: the last handler of a chain may call [Next] as often as it likes.
    Once the cursor is at the last index, a handler body always returns,
    whatever it does and whatever the bound, no further handler is entered
    and nothing panics: each [Next] only advances the cursor. *)
Theorem last_handler_runs_nothing (fuel : nat) (h : HandlerFunc) (c : Context) :
  Z.of_nat (length (handlerChain c)) <= handlerIdx c + 1 ->
  exists c',
    exec (Next fuel) h c = Some c' /\
    entered (events c') = entered (events c) /\
    handlerIdx c <= handlerIdx c'.
Proof.
  intros Hend.
  destruct (exec_spec
              (fun c0 => handlerChain c0 = handlerChain c /\
                         handlerIdx c <= handlerIdx c0 /\
                         entered (events c0) = entered (events c))
              (Next fuel)) with (h := h) (c := c) as (c' & Hex & _ & Hi & He).
  - intros c0 (Hch & Hi & He). rewrite Next_at_end by (rewrite Hch; lia).
    eexists. split; [reflexivity|]. simpl. repeat split; try assumption; try lia.
    unfold entered in *. rewrite omap_app. simpl. rewrite app_nil_r. exact He.
  - intros c0 (Hch & Hi & He). simpl. unfold entered in *.
    repeat split; try assumption; rewrite omap_app; simpl; rewrite app_nil_r; exact He.
  - repeat split. lia.
  - exists c'. repeat split; assumption.
Qed.

Lemma last_handler_runs_nothing_witness :
  exists c',
    exec (Next 0) twice_handler
         (set_handlerIdx 0 (newContext (request "m" (VString "a")) [twice_handler]))
      = Some c' /\
    entered (events c')
      = entered (events (set_handlerIdx 0
                           (newContext (request "m" (VString "a")) [twice_handler]))) /\
    handlerIdx (set_handlerIdx 0 (newContext (request "m" (VString "a")) [twice_handler]))
      <= handlerIdx c'.
Proof.
  apply (last_handler_runs_nothing 0 twice_handler
           (set_handlerIdx 0 (newContext (request "m" (VString "a")) [twice_handler]))).
  simpl. lia.
Defined.

Section Order.

(** If [next] keeps [Q] whenever it returns, so does every handler body. *)
Lemma exec_keeps (Q : Context -> Prop) (next : Context -> option Context) :
  (forall c c', Q c -> next c = Some c' -> Q c') ->
  stable Q ->
  forall h c c', Q c -> exec next h c = Some c' -> Q c'.
Proof.
  intros Hnext Hst h.
  induction h as [|k IH|data k IH|err k IH|k IH|k IH|v k IH|key value k IH|key k IH|k IH];
    intros c c' Hc Hex; simpl in Hex.
  - injection Hex as <-. exact Hc.
  - destruct (next c) as [c1|] eqn:Hn; [|discriminate]. eauto.
  - eapply IH; [|exact Hex]. apply Hst, Hc.
  - eapply IH; [|exact Hex]. apply Hst, Hc.
  - eapply IH; eassumption.
  - eapply IH; eassumption.
  - pose proof (Bind_context c v) as HB.
    destruct (Bind c v) as [[c1 v1] e1]. simpl in HB. subst c1. eapply IH; eassumption.
  - eapply IH; [|exact Hex]. apply Hst, Hc.
  - eapply IH; eassumption.
  - eapply IH; eassumption.
Qed.

Lemma entered_snoc (evs : list Event) (e : Event) :
  entered (evs ++ [e]) =
  entered evs ++ match e with EvEnter i => [i] | _ => [] end.
Proof. unfold entered. rewrite omap_app. destruct e; reflexivity. Qed.

Lemma in_order_stable ch : stable (in_order ch).
Proof.
  intros c (Hch & Hlo & Hen). unfold in_order. simpl.
  repeat split; try assumption; rewrite entered_snoc, app_nil_r; exact Hen.
Qed.

Lemma Next_in_order ch :
  forall fuel c c', in_order ch c -> Next fuel c = Some c' -> in_order ch c'.
Proof.
  induction fuel as [|fuel IH]; intros c c' (Hch & Hlo & Hen) HN; cbn [Next] in HN;
    set (c1 := log_event EvNext (set_handlerIdx (handlerIdx c + 1) c)) in *;
    change (handlerIdx c1) with (handlerIdx c + 1) in HN;
    change (handlerChain c1) with (handlerChain c) in HN; rewrite Hch in HN;
    assert (Hc1 : Z.of_nat (length ch) <= handlerIdx c + 1 -> in_order ch c1)
      by (intros Hge; unfold in_order, c1; simpl; repeat split; try assumption; try lia;
          rewrite entered_snoc, app_nil_r, Hen; f_equal; lia);
    destruct (Z.ltb_spec (handlerIdx c + 1) (Z.of_nat (length ch))) as [Hlt|Hge];
    try (injection HN as <-; apply Hc1, Hge).
  - destruct (Z.ltb_spec (handlerIdx c + 1) 0); [discriminate|].
    destruct (ch !! Z.to_nat (handlerIdx c + 1)); discriminate.
  - destruct (Z.ltb_spec (handlerIdx c + 1) 0) as [|Hnn]; [discriminate|].
    destruct (ch !! Z.to_nat (handlerIdx c + 1)) as [h|]; [|discriminate].
    destruct (exec (Next fuel) h (log_event (EvEnter (Z.to_nat (handlerIdx c + 1))) c1))
      as [c2|] eqn:Hex; [|discriminate].
    injection HN as <-.
    assert (Hc2 : in_order ch c2).
    { eapply (exec_keeps (in_order ch) (Next fuel)); [|apply in_order_stable| |exact Hex].
      - intros c0 c0' H0 HN0. eapply IH; eassumption.
      - unfold in_order, c1. simpl. repeat split; try assumption; try lia.
        rewrite !entered_snoc, app_nil_r, Hen.
        replace (Z.to_nat (Z.min (handlerIdx c + 1 + 1) (Z.of_nat (length ch))))
          with (S (Z.to_nat (handlerIdx c + 1))) by lia.
        replace (Z.to_nat (Z.min (handlerIdx c + 1) (Z.of_nat (length ch))))
          with (Z.to_nat (handlerIdx c + 1)) by lia.
        rewrite List.seq_S. reflexivity. }
    destruct Hc2 as (Hch2 & Hlo2 & Hen2). unfold in_order. simpl.
    repeat split; try assumption. rewrite entered_snoc, app_nil_r. exact Hen2.
Qed.

End Order.

(** ** Dispatch *)

(** [Next], called on a fresh context, runs the first handler of the
    chain. *)
Lemma Next_first (req : protocol.Request) (h : HandlerFunc) (rest : list HandlerFunc)
    (ctx' : Context) :
  Next (length (h :: rest)) (newContext req (h :: rest)) = Some ctx' ->
  exists c2,
    exec (Next (length rest)) h
         (log_event (EvEnter 0)
            (log_event EvNext (set_handlerIdx 0 (newContext req (h :: rest))))) = Some c2 /\
    events ctx' = events c2 ++ [EvLeave 0%nat].
Proof.
  intros HN. cbn [Next length] in HN.
  change (handlerIdx (newContext req (h :: rest)) + 1) with 0 in HN.
  set (c1 := log_event EvNext (set_handlerIdx 0 (newContext req (h :: rest)))) in *.
  change (handlerIdx c1) with 0 in HN.
  change (handlerChain c1) with (h :: rest) in HN.
  change (0 <? Z.of_nat (length (h :: rest))) with true in HN.
  cbn [Z.ltb Z.compare Z.to_nat lookup list_lookup] in HN.
  change (Z.to_nat 0) with 0%nat in HN.
  change ((h :: rest) !! 0%nat) with (Some h) in HN. cbv beta iota in HN.
  destruct (exec (Next (length rest)) h (log_event (EvEnter 0) c1)) as [c2|];
    [|discriminate].
  injection HN as <-. exists c2. split; reflexivity.
Qed.

(** X4: the handlers of a request are entered by increasing index of the
    final chain [Next] runs, which is the global middlewares followed by the
    method's chain: the indices entered are 0, 1, ..., k-1, without gaps and
    none twice.  A request with a null id or an unknown method enters none.
    A dispatched request enters at least the first handler of a non-empty
    final chain and at most all of them; its history is that of [Next] on
    that chain, and when the server has global middlewares the handler run
    at index 0 is the first of them. *)
Theorem handlers_entered_in_order (s : Server) (enc out : list protocol.Response)
    (req : protocol.Request) (evs : list Event) :
  handleRequest s enc req = Some (out, evs) ->
  exists k, entered evs = List.seq 0 k /\
    (protocol.ID req = VNil -> k = 0%nat) /\
    (router_find (srv_router s) (protocol.Method req) = None -> k = 0%nat) /\
    forall entry,
      protocol.ID req <> VNil ->
      router_find (srv_router s) (protocol.Method req) = Some entry ->
      (k <= length (globalMiddlewares s ++ chain entry))%nat /\
      (globalMiddlewares s ++ chain entry <> [] -> (1 <= k)%nat) /\
      (exists ctx',
        Next (length (globalMiddlewares s ++ chain entry))
             (newContext req (globalMiddlewares s ++ chain entry)) = Some ctx' /\
        evs = events ctx') /\
      (forall g gs, globalMiddlewares s = g :: gs ->
        exists c2,
          exec (Next (length (gs ++ chain entry))) g
               (log_event (EvEnter 0)
                  (log_event EvNext
                     (set_handlerIdx 0 (newContext req (g :: gs ++ chain entry)))))
            = Some c2 /\
          evs = events c2 ++ [EvLeave 0%nat]).
Proof.
  intros Hh.
  destruct (handleRequest_cases s enc req)
    as [[Hnil Hh']|[(Hid & Hnone & Hh')|(entry & ctx' & Hid & Hfind & HN & _ & Hh')]];
    rewrite Hh' in Hh; injection Hh as <- <-.
  - exists 0%nat. repeat split; congruence.
  - exists 0%nat. repeat split; congruence.
  - set (fc := globalMiddlewares s ++ chain entry) in *.
    destruct (Next_in_order fc (length fc) (newContext req fc) ctx') as (_ & _ & Hen).
    + unfold in_order, newContext. simpl. repeat split; try lia.
      replace (Z.to_nat (Z.min (-1 + 1) (Z.of_nat (length fc)))) with 0%nat by lia.
      reflexivity.
    + exact HN.
    + destruct (Next_spec fc req (length fc) (-1) (newContext req fc))
        as (ctx'' & HN' & _ & _ & Hlo & _).
      * lia.
      * lia.
      * unfold engine_inv, slots_logged, newContext; simpl.
        repeat split; try reflexivity; try lia.
        intros l1 l2 j Heq. destruct l1; discriminate.
      * rewrite HN in HN'. injection HN' as <-.
        eexists. split; [exact Hen|].
        split; [congruence|]. split; [congruence|].
        intros entry' _ Hfind'. rewrite Hfind in Hfind'. injection Hfind' as <-.
        fold fc. split; [lia|]. split; [|split].
        -- intros Hne. destruct fc; [congruence|]. simpl length in *. lia.
        -- exists ctx'. split; [exact HN|reflexivity].
        -- intros g gs Hg. unfold fc in HN. rewrite Hg in HN.
           exact (Next_first req g (gs ++ chain entry) ctx' HN).
Qed.

Lemma handlers_entered_in_order_witness :
  exists k,
    entered [EvNext; EvEnter 0; EvNext; EvEnter 1; EvLeave 1; EvNext;
             EvEnter 2; EvResult (VString "x"); EvLeave 2; EvLeave 0] = List.seq 0 k /\
    (protocol.ID (request "m" (VString "a")) = VNil -> k = 0%nat) /\
    (router_find (srv_router (Use (serve "m" [idle_handler; x_handler]) [twice_handler]))
                 (protocol.Method (request "m" (VString "a"))) = None -> k = 0%nat) /\
    forall entry,
      protocol.ID (request "m" (VString "a")) <> VNil ->
      router_find (srv_router (Use (serve "m" [idle_handler; x_handler]) [twice_handler]))
                  (protocol.Method (request "m" (VString "a"))) = Some entry ->
      (k <= length (globalMiddlewares
                      (Use (serve "m" [idle_handler; x_handler]) [twice_handler])
                    ++ chain entry))%nat /\
      (globalMiddlewares (Use (serve "m" [idle_handler; x_handler]) [twice_handler])
         ++ chain entry <> [] -> (1 <= k)%nat) /\
      (exists ctx',
        Next (length (globalMiddlewares
                        (Use (serve "m" [idle_handler; x_handler]) [twice_handler])
                      ++ chain entry))
             (newContext (request "m" (VString "a"))
                (globalMiddlewares
                   (Use (serve "m" [idle_handler; x_handler]) [twice_handler])
                 ++ chain entry)) = Some ctx' /\
        [EvNext; EvEnter 0; EvNext; EvEnter 1; EvLeave 1; EvNext;
         EvEnter 2; EvResult (VString "x"); EvLeave 2; EvLeave 0] = events ctx') /\
      (forall g gs,
        globalMiddlewares (Use (serve "m" [idle_handler; x_handler]) [twice_handler])
          = g :: gs ->
        exists c2,
          exec (Next (length (gs ++ chain entry))) g
               (log_event (EvEnter 0)
                  (log_event EvNext
                     (set_handlerIdx 0
                        (newContext (request "m" (VString "a"))
                                    (g :: gs ++ chain entry)))))
            = Some c2 /\
          [EvNext; EvEnter 0; EvNext; EvEnter 1; EvLeave 1; EvNext;
           EvEnter 2; EvResult (VString "x"); EvLeave 2; EvLeave 0]
            = events c2 ++ [EvLeave 0%nat]).
Proof.
  apply (handlers_entered_in_order
           (Use (serve "m" [idle_handler; x_handler]) [twice_handler]) []
           [{| protocol.Jsonrpc := "2.0"; protocol.Result := VString "x";
               protocol.Error := None; protocol.resp_ID := VString "a" |}]
           (request "m" (VString "a"))).
  vm_compute. reflexivity.
Defined.

(** X5: every request, whatever its id and method, is answered with exactly
    one response, appended after what was written before; the response
    carries the version ["2.0"] and the request's id, which is null when the
    request had none. *)
Theorem one_response_per_request (s : Server) (enc : list protocol.Response)
    (req : protocol.Request) :
  exists resp evs,
    handleRequest s enc req = Some (enc ++ [resp], evs) /\
    protocol.Jsonrpc resp = "2.0"%string /\
    protocol.resp_ID resp = protocol.ID req.
Proof.
  destruct (handleRequest_cases s enc req)
    as [[Hnil Hh]|[(_ & _ & Hh)|(entry & ctx' & _ & _ & _ & _ & Hh)]];
    eexists _, _; (split; [exact Hh|]).
  - rewrite Hnil. split; reflexivity.
  - split; reflexivity.
  - unfold respond. destruct (state_of (events ctx')) as [res [e|]]; cbn [fst snd].
    + rewrite box_error_response. split; reflexivity.
    + split; [destruct res; reflexivity|apply createResponse_id].
Qed.

(** X6: an error left on the context takes precedence.  When the last call
    of [Error] made while a request was processed set a non-nil error, the
    response is the error response for it, whatever result was set. *)
Theorem error_takes_precedence (s : Server) (enc out : list protocol.Response)
    (req : protocol.Request) (evs : list Event) (e : protocol.ErrorObject) :
  handleRequest s enc req = Some (out, evs) ->
  (state_of evs).2 = Some e ->
  out = enc ++ [error_response (protocol.ID req) e].
Proof.
  intros Hh He.
  destruct (handleRequest_cases s enc req)
    as [[_ Hh']|[(_ & _ & Hh')|(entry & ctx' & _ & _ & _ & _ & Hh')]];
    rewrite Hh' in Hh; injection Hh as <- <-; try discriminate.
  unfold respond. rewrite He. rewrite box_error_response. reflexivity.
Qed.

Lemma error_takes_precedence_witness :
  [{| protocol.Jsonrpc := "2.0"; protocol.Result := VNil;
      protocol.Error := Some (protocol.NewError (-32001) "Unauthorized" VNil);
      protocol.resp_ID := VString "a" |}]
  = [] ++ [error_response (protocol.ID (request "m" (VString "a")))
             (protocol.NewError (-32001) "Unauthorized" VNil)].
Proof.
  apply (error_takes_precedence
           (serve "m" [CallResult (VString "x")
                         (CallError (Some (protocol.NewError (-32001) "Unauthorized" VNil))
                            Return)])
           [] _ (request "m" (VString "a"))
           [EvNext; EvEnter 0; EvResult (VString "x");
            EvError (Some (protocol.NewError (-32001) "Unauthorized" VNil)); EvLeave 0]).
  - vm_compute. reflexivity.
  - reflexivity.
Defined.

Section Gate.

(** A handler that never calls [Next] returns whatever [Next] would do,
    enters no handler and leaves the cursor alone. *)
Lemma exec_never_calls_next (next : Context -> option Context) (h : HandlerFunc) :
  never_calls_next h ->
  forall c, exists c',
    exec next h c = Some c' /\
    entered (events c') = entered (events c) /\
    handlerIdx c' = handlerIdx c.
Proof.
  induction h as [|k IH|data k IH|err k IH|k IH|k IH|v k IH|key value k IH|key k IH|k IH];
    simpl; intros Hn c.
  - eauto.
  - destruct Hn.
  - destruct (IH Hn (Result c data)) as (c' & -> & He & Hi). exists c'.
    split; [reflexivity|]. rewrite He, Hi. simpl. rewrite entered_snoc, app_nil_r. auto.
  - destruct (IH Hn (Error c err)) as (c' & -> & He & Hi). exists c'.
    split; [reflexivity|]. rewrite He, Hi. simpl. rewrite entered_snoc, app_nil_r. auto.
  - apply IH, Hn.
  - apply IH, Hn.
  - pose proof (Bind_context c v) as HB.
    destruct (Bind c v) as [[c1 v1] e1]. simpl in HB. subst c1. apply IH, Hn.
  - destruct (IH Hn (Set_ c key value)) as (c' & -> & He & Hi). exists c'. auto.
  - apply IH, Hn.
  - apply IH, Hn.
Qed.

End Gate.

(** X7: a first handler that never calls [Next] is a gate.  When the final
    chain of a request (global middlewares, then the method's chain) starts
    with such a handler, that handler is the only one entered. *)
Theorem first_handler_gate (s : Server) (enc : list protocol.Response)
    (req : protocol.Request) (entry : handlerEntry) (h : HandlerFunc)
    (rest : list HandlerFunc) :
  protocol.ID req <> VNil ->
  router_find (srv_router s) (protocol.Method req) = Some entry ->
  globalMiddlewares s ++ chain entry = h :: rest ->
  never_calls_next h ->
  exists resp evs,
    handleRequest s enc req = Some (enc ++ [resp], evs) /\
    entered evs = [0%nat].
Proof.
  intros Hid Hfind Hfc Hn.
  destruct (handleRequest_cases s enc req)
    as [[Hnil _]|[(_ & Hnone & _)|(entry' & ctx' & _ & Hfind' & HN & _ & Hh)]];
    [congruence|congruence|].
  rewrite Hfind in Hfind'. injection Hfind' as <-.
  eexists _, _. split; [exact Hh|].
  rewrite Hfc in HN. cbn [Next length] in HN.
  set (c1 := log_event EvNext (set_handlerIdx (handlerIdx (newContext req (h :: rest)) + 1)
                                 (newContext req (h :: rest)))) in *.
  change (handlerIdx c1) with 0 in HN.
  change (handlerChain c1) with (h :: rest) in HN.
  change (0 <? Z.of_nat (length (h :: rest))) with true in HN.
  cbn [Z.ltb Z.compare Z.to_nat lookup list_lookup] in HN.
  destruct (exec_never_calls_next (Next (length rest)) h Hn (log_event (EvEnter 0) c1))
    as (c2 & Hex & Hen & _).
  simpl in HN. change (Z.to_nat 0) with 0%nat in HN.
  rewrite Hex in HN. injection HN as <-.
  simpl. rewrite entered_snoc, app_nil_r, Hen. reflexivity.
Qed.

Lemma first_handler_gate_witness :
  exists resp evs,
    handleRequest
      (Use (serve "m" [x_handler])
           [CallError (Some (protocol.NewError (-32001) "Unauthorized" VNil)) Return])
      [] (request "m" (VString "a")) = Some ([] ++ [resp], evs) /\
    entered evs = [0%nat].
Proof.
  apply (first_handler_gate
           (Use (serve "m" [x_handler])
                [CallError (Some (protocol.NewError (-32001) "Unauthorized" VNil)) Return])
           [] (request "m" (VString "a")) (mkHandlerEntry [x_handler])
           (CallError (Some (protocol.NewError (-32001) "Unauthorized" VNil)) Return)
           [x_handler]).
  - discriminate.
  - vm_compute. reflexivity.
  - reflexivity.
  - exact I.
Defined.

(** X8: [Listen] registers the built-in ["ping"] handler.  When [net.Listen]
    fails the server is left as it was; otherwise, on a server without global
    middlewares, a ["ping"] request with a non-null id is answered with the
    result ["pong"], also when another handler had been registered under
    that name before. *)
Theorem Listen_ping (s : Server) (enc : list protocol.Response)
    (req : protocol.Request) (e : GoError) :
  globalMiddlewares s = [] ->
  protocol.Method req = "ping"%string ->
  protocol.ID req <> VNil ->
  Listen (Some e) s = (s, Some e) /\
  (Listen None s).2 = None /\
  handleRequest (Listen None s).1 enc req =
    Some (enc ++ [{| protocol.Jsonrpc := "2.0"; protocol.Result := VString "pong";
                     protocol.Error := None; protocol.resp_ID := protocol.ID req |}],
          [EvNext; EvEnter 0; EvResult (VString "pong"); EvLeave 0]).
Proof.
  intros Hgm Hm Hid. split; [reflexivity|]. split; [reflexivity|].
  destruct (handleRequest_cases (Listen None s).1 enc req)
    as [[Hnil _]|[(_ & Hnone & _)|(entry & ctx' & _ & Hfind & HN & _ & Hh)]];
    [congruence| |].
  - rewrite Hm in Hnone. unfold router_find in Hnone. simpl in Hnone.
    rewrite lookup_insert_eq in Hnone. discriminate.
  - rewrite Hm in Hfind. unfold router_find in Hfind. simpl in Hfind.
    rewrite lookup_insert_eq in Hfind. injection Hfind as <-.
    simpl in HN. rewrite Hgm in HN. simpl in HN. injection HN as <-.
    rewrite Hh. reflexivity.
Qed.

Lemma Listen_ping_witness :
  Listen (Some (IOError "address already in use")) (serve "ping" [idle_handler])
    = (serve "ping" [idle_handler], Some (IOError "address already in use")) /\
  (Listen None (serve "ping" [idle_handler])).2 = None /\
  handleRequest (Listen None (serve "ping" [idle_handler])).1 []
                (request "ping" (VInt KInt 1)) =
    Some ([] ++ [{| protocol.Jsonrpc := "2.0"; protocol.Result := VString "pong";
                    protocol.Error := None;
                    protocol.resp_ID := protocol.ID (request "ping" (VInt KInt 1)) |}],
          [EvNext; EvEnter 0; EvResult (VString "pong"); EvLeave 0]).
Proof.
  apply (Listen_ping (serve "ping" [idle_handler]) [] (request "ping" (VInt KInt 1))
           (IOError "address already in use")).
  - vm_compute. reflexivity.
  - reflexivity.
  - discriminate.
Defined.

(** ** Lookup keys of the client *)

(** X9: integer ids never collide with each other, whatever their Go integer
    types, and neither do string ids: two such keys are equal exactly when
    the integers, respectively the strings, are equal. *)
Theorem idToKey_int_string_injective (k k' : IntKind) (n n' : Z) (s s' : string) :
  (idToKey (VInt k n) = idToKey (VInt k' n') <-> n = n') /\
  (idToKey (VString s) = idToKey (VString s') <-> s = s').
Proof.
  split; split; simpl.
  - intros H. injection H as H. unfold sprintf_d in H. exact (inj pretty _ _ H).
  - intros ->. reflexivity.
  - intros H. injection H as H. exact H.
  - intros ->. reflexivity.
Qed.

Section FloatKeys.

Lemma pretty_opp (z : Z) : 0 < z -> pretty (- z) = ("-" +:+ pretty z)%string.
Proof. destruct z; try lia. intros _. reflexivity. Qed.

Lemma Qeq_int (a n : Z) : (inject_Z a == inject_Z n)%Q -> a = n.
Proof. unfold Qeq, inject_Z. simpl. lia. Qed.

Lemma Qeq_frac (a n : Z) (D : positive) :
  (Qmake a D == inject_Z n)%Q -> a = n * Z.pos D.
Proof. unfold Qeq, inject_Z. simpl. lia. Qed.

(** The rounded magnitude of a float whose value is the integer [n]. *)
Lemma round_magnitude_integer (s : bool) (m : positive) (e n : Z) :
  float_is_integer (S754_finite s m e) n ->
  round_magnitude m e = Z.abs n /\ (if s then n < 0 else 0 < n).
Proof.
  unfold float_is_integer, round_magnitude. simpl.
  destruct (Z.leb_spec 0 e) as [He|He]; intros Hq.
  - apply Qeq_int in Hq.
    assert (0 < Z.pos m * 2 ^ e) by (apply Z.mul_pos_pos; [lia|apply Z.pow_pos_nonneg; lia]).
    destruct s; simpl in Hq; split; lia.
  - assert (Hp : 0 < 2 ^ (- e)) by (apply Z.pow_pos_nonneg; lia).
    apply Qeq_frac in Hq. rewrite Z2Pos.id in Hq by exact Hp.
    assert (Hs : if s then n < 0 else 0 < n) by (destruct s; simpl in Hq; nia).
    split; [|exact Hs].
    apply round_half_even_near; [exact Hp|].
    destruct s; simpl in Hq; nia.
Qed.

End FloatKeys.

(** The key of a float with an integer value. *)
Lemma float_key_of_int (n : Z) (ik : IntKind) (fk : FloatKind) (f : spec_float) :
  float_is_integer f n ->
  (n = 0 -> float_sign f = false) ->
  idToKey (VFloat fk f) = idToKey (VInt ik n).
Proof.
  intros Hi Hz. simpl. f_equal. unfold sprintf_d.
  destruct f as [s|s| |s m e]; simpl in *; try (unfold float_is_integer in Hi; simpl in Hi; tauto).
  - unfold float_is_integer in Hi. simpl in Hi. apply Qeq_int in Hi. subst n.
    rewrite (Hz eq_refl). reflexivity.
  - destruct (round_magnitude_integer s m e n Hi) as [Hr Hs]. rewrite Hr.
    destruct s.
    + replace n with (- Z.abs n) at 2 by lia. rewrite pretty_opp by lia. reflexivity.
    + replace (Z.abs n) with n by lia. reflexivity.
Qed.

(** X10: the key survives the trip over the wire.  A number that was sent as
    an integer id [n] comes back from the JSON decoder as a [float64]; when
    that float has exactly the value [n] (and, for zero, a clear sign bit),
    its key is the key of the integer id, for negative ids too. *)
Theorem idToKey_float_of_int (n : Z) (ik : IntKind) (fk : FloatKind) (f : spec_float) :
  float_is_integer f n ->
  (n = 0 -> float_sign f = false) ->
  idToKey (VFloat fk f) = idToKey (VInt ik n).
Proof. apply float_key_of_int. Qed.

Lemma idToKey_float_of_int_witness :
  idToKey (VFloat KFloat64 float_minus_three) = idToKey (VInt KInt (-3)).
Proof.
  apply (idToKey_float_of_int (-3) KInt KFloat64 float_minus_three).
  - vm_compute. reflexivity.
  - intros H. discriminate H.
Defined.

(** ** The receive loop of the client *)

Section Receive.

Lemma signal_ok (call : CallRef) (k : Call) (ch : Chan) (c : Client) :
  calls c !! call = Some k -> chans c !! Done k = Some ch -> has_room ch ->
  signal call c = Some (set_chans (<[Done k := sent ch call]> (chans c)) c).
Proof.
  intros Hk Hch Hroom. unfold signal. rewrite Hk, Hch.
  destruct (Nat.ltb_spec (length (chan_buf ch)) (chan_cap ch)) as [_|Hge];
    [reflexivity|unfold has_room in Hroom; lia].
Qed.

(** What a successful signal leaves alone. *)
Lemma signal_frame (call : CallRef) (c c' : Client) :
  signal call c = Some c' ->
  encoder c' = encoder c /\ seq c' = seq c /\ pending c' = pending c /\
  closing c' = closing c /\ shutdown c' = shutdown c /\ calls c' = calls c /\
  sending c' = sending c /\ receiving c' = receiving c.
Proof.
  unfold signal. destruct (calls c !! call) as [k|]; [|discriminate].
  destruct (chans c !! Done k) as [ch|]; [|discriminate].
  destruct (length (chan_buf ch) <? chan_cap ch)%nat; [|discriminate].
  intros H. injection H as <-. repeat split.
Qed.

Lemma set_pending_id (c : Client) : set_pending (pending c) c = c.
Proof. destruct c; reflexivity. Qed.

End Receive.

(** The effect of a response on the call pending under its key. *)
Lemma receive_response_match (res : protocol.Response) (jsonData : JSON)
    (idKey : string) (call : CallRef) (k : Call) (ch : Chan) (c : Client) :
  receiving c = true ->
  idToKey (protocol.resp_ID res) = (idKey, None) ->
  pending c !! idKey = Some call ->
  calls c !! call = Some k -> chans c !! Done k = Some ch -> has_room ch ->
  exists c',
    receive_response res jsonData c = Some c' /\
    pending c' = delete idKey (pending c) /\
    calls c' !! call = Some (completed k res jsonData) /\
    chans c' !! Done k = Some (sent ch call) /\
    encoder c' = encoder c /\ receiving c' = true.
Proof.
  intros Hrecv Hkey Hpend Hk Hch Hroom.
  unfold receive_response, completed. rewrite Hrecv, Hkey, Hpend.
  destruct (protocol.Error res) as [e|].
  - destruct (fail_call call k ch (Some (RpcError e))
                (set_pending (delete idKey (pending c)) c) Hk Hch Hroom)
      as (c' & Hsig & He & Hp & _ & _ & _ & Hc & Hd).
    exists c'. split; [exact Hsig|]. rewrite Hp, He.
    apply signal_frame in Hsig as (_ & _ & _ & _ & _ & _ & _ & Hr).
    rewrite Hr. repeat split; assumption.
  - simpl. rewrite Hk. destruct k as [m a [t|] er dn]; simpl in *.
    + destruct (json_Unmarshal jsonData t) as [t' err] eqn:Hu.
      eexists. split.
      * eapply (signal_ok call (mkCall m a (Some t') err dn) ch); [|exact Hch|exact Hroom].
        simpl. rewrite !lookup_alter_eq, Hk. reflexivity.
      * simpl. rewrite !lookup_alter_eq, Hk, lookup_insert_eq. repeat split. exact Hrecv.
    + eexists. split.
      * eapply (signal_ok call (mkCall m a None er dn) ch); [exact Hk|exact Hch|exact Hroom].
      * simpl. rewrite Hk, lookup_insert_eq. repeat split. exact Hrecv.
Qed.

(** X11: a response whose id has the key of a pending call completes that
    call: the entry is removed from the pending map, the call gets the
    response's error, or else its reply variable is decoded from the result
    and its error is the outcome of the decoding, and the call is sent once
    on its channel; nothing is written and the loop goes on. *)
Theorem receive_response_completes (res : protocol.Response) (jsonData : JSON)
    (idKey : string) (call : CallRef) (k : Call) (ch : Chan) (c : Client) :
  receiving c = true ->
  idToKey (protocol.resp_ID res) = (idKey, None) ->
  pending c !! idKey = Some call ->
  calls c !! call = Some k -> chans c !! Done k = Some ch -> has_room ch ->
  exists c',
    receive_response res jsonData c = Some c' /\
    pending c' = delete idKey (pending c) /\
    calls c' !! call = Some (completed k res jsonData) /\
    chans c' !! Done k = Some (sent ch call) /\
    encoder c' = encoder c /\ receiving c' = true.
Proof. apply receive_response_match. Qed.

Lemma receive_response_completes_witness :
  exists c',
    receive_response (result_response (VFloat KFloat64 float_one) (VInt KInt 15))
                     (JInt 15) one_pending = Some c' /\
    pending c' = delete "1"%string (pending one_pending) /\
    calls c' !! 0%nat
      = Some (completed add_call
                        (result_response (VFloat KFloat64 float_one) (VInt KInt 15))
                        (JInt 15)) /\
    chans c' !! Done add_call = Some (sent (mkChan 1 []) 0%nat) /\
    encoder c' = encoder one_pending /\ receiving c' = true.
Proof.
  apply (receive_response_completes
           (result_response (VFloat KFloat64 float_one) (VInt KInt 15)) (JInt 15)
           "1" 0%nat add_call (mkChan 1 []) one_pending).
  - reflexivity.
  - vm_compute. reflexivity.
  - vm_compute. reflexivity.
  - vm_compute. reflexivity.
  - vm_compute. reflexivity.
  - unfold has_room. simpl. lia.
Defined.

(** X12: a response that matches nothing is dropped.  When the id of the
    response is of a type without a key, or no call is pending under its
    key, the client is left exactly as it was and the loop goes on. *)
Theorem receive_response_drops (res : protocol.Response) (jsonData : JSON) (c : Client) :
  receiving c = true ->
  (idToKey (protocol.resp_ID res)).2 <> None \/
  pending c !! (idToKey (protocol.resp_ID res)).1 = None ->
  receive_response res jsonData c = Some c.
Proof.
  intros Hrecv Hno. unfold receive_response. rewrite Hrecv.
  destruct (idToKey (protocol.resp_ID res)) as [idKey [err|]] eqn:Hkey; simpl in Hno.
  - reflexivity.
  - destruct Hno as [Hno|Hno]; [congruence|]. rewrite Hno.
    rewrite delete_id by exact Hno. rewrite set_pending_id. reflexivity.
Qed.

Lemma receive_response_drops_witness :
  receive_response (result_response VNil (VString "late")) (JString "late") Dial
    = Some Dial.
Proof.
  apply (receive_response_drops (result_response VNil (VString "late"))
           (JString "late") Dial).
  - reflexivity.
  - left. discriminate.
Defined.

(** ** The end of the receive loop *)

Section Sweep.

Variable err : GoError.

Lemma foldl_fail_None (l : list (string * CallRef)) :
  foldl (fail_one err) None l = None.
Proof. induction l as [|kc l IH]; [reflexivity|exact IH]. Qed.

Lemma fail_one_spec (c c' : Client) (kc : string * CallRef) :
  fail_one err (Some c) kc = Some c' ->
  pending c' = delete kc.1 (pending c) /\
  shutdown c' = shutdown c /\ receiving c' = receiving c /\
  encoder c' = encoder c /\ closing c' = closing c /\
  failed_with err c' kc.2 /\
  forall call, failed_with err c call -> failed_with err c' call.
Proof.
  unfold fail_one.
  destruct (signal kc.2 (set_call_error kc.2 (Some err) c)) as [c1|] eqn:Hsig; [|discriminate].
  intros H. injection H as <-. simpl.
  pose proof (signal_frame _ _ _ Hsig) as (He & _ & Hp & Hc & Hs & Hcalls & _ & Hr).
  simpl in *. rewrite Hp, Hs, Hr, He, Hc. do 5 (split; [reflexivity|]).
  unfold failed_with. simpl. rewrite Hcalls. split.
  - unfold signal in Hsig. simpl in Hsig.
    rewrite lookup_alter_eq in Hsig. rewrite lookup_alter_eq.
    destruct (calls c !! kc.2) as [k|]; [|discriminate]. simpl. eauto.
  - intros call (k & Hk & Hek). destruct (decide (call = kc.2)) as [->|Hne].
    + rewrite lookup_alter_eq, Hk. simpl. eauto.
    + rewrite lookup_alter_ne by congruence. eauto.
Qed.

Lemma foldl_fail_spec (l : list (string * CallRef)) :
  forall c c', foldl (fail_one err) (Some c) l = Some c' ->
    pending c' = foldl (fun m kc => delete kc.1 m) (pending c) l /\
    shutdown c' = shutdown c /\ receiving c' = receiving c /\
    encoder c' = encoder c /\ closing c' = closing c /\
    forall call, call ∈ l.*2 \/ failed_with err c call -> failed_with err c' call.
Proof.
  induction l as [|kc l IH]; intros c c' Hf; cbn [foldl] in Hf.
  - injection Hf as <-. repeat split. intros call [Hin|H]; [|exact H].
    apply elem_of_nil in Hin. destruct Hin.
  - destruct (fail_one err (Some c) kc) as [c1|] eqn:H1;
      [|rewrite foldl_fail_None in Hf; discriminate].
    apply fail_one_spec in H1 as (Hp1 & Hs1 & Hr1 & He1 & Hc1 & Hk1 & Hkeep1).
    apply IH in Hf as (Hp & Hs & Hr & He & Hc & Hkeep).
    simpl. rewrite Hp, Hp1, Hs, Hs1, Hr, Hr1, He, He1, Hc, Hc1.
    repeat split. intros call [Hin|H].
    + cbn [fmap list_fmap] in Hin. apply elem_of_cons in Hin as [->|Hin].
      * apply Hkeep. right. exact Hk1.
      * apply Hkeep. left. exact Hin.
    + apply Hkeep. right. apply Hkeep1, H.
Qed.

Lemma lookup_foldl_delete (l : list (string * CallRef)) :
  forall (m : gmap string CallRef) key,
    foldl (fun m kc => delete kc.1 m) m l !! key =
    if decide (key ∈ l.*1) then None else m !! key.
Proof.
  induction l as [|kc l IH]; intros m key; cbn [foldl fmap list_fmap].
  - destruct (decide (key ∈ [])) as [H|_]; [|reflexivity].
    apply elem_of_nil in H. destruct H.
  - rewrite IH.
    destruct (decide (key ∈ l.*1)) as [Hin|Hout];
      destruct (decide (key ∈ kc.1 :: l.*1)) as [Hin'|Hout']; try reflexivity.
    + exfalso. apply Hout'. apply elem_of_cons. right. exact Hin.
    + apply elem_of_cons in Hin' as [->|Hin']; [apply lookup_delete_eq|tauto].
    + apply lookup_delete_ne. intros <-. apply Hout'. apply elem_of_cons. left. reflexivity.
Qed.

End Sweep.

(** X13: when the receive loop ends, no call stays pending.  If the final
    loop gets through (no channel is full), the pending map is empty, the
    client is marked shut down, every call that was pending carries the
    error of the failed read, and nothing was written. *)
Theorem receive_fail_sweeps (err : GoError) (c c' : Client) :
  receive_fail err c = Some c' ->
  pending c' = ∅ /\ shutdown c' = true /\ receiving c' = false /\
  encoder c' = encoder c /\
  forall key call, pending c !! key = Some call -> failed_with err c' call.
Proof.
  unfold receive_fail. destruct (receiving c); [|discriminate]. intros Hf.
  apply foldl_fail_spec in Hf as (Hp & Hs & Hr & He & _ & Hkeep). simpl in *.
  split; [|repeat split; try assumption].
  - rewrite Hp. apply map_eq. intros key. rewrite lookup_foldl_delete, lookup_empty.
    destruct (decide (key ∈ (map_to_list (pending c)).*1)) as [_|Hout]; [reflexivity|].
    destruct (pending c !! key) as [call|] eqn:Hk; [|reflexivity].
    exfalso. apply Hout. apply list_elem_of_fmap. exists (key, call).
    split; [reflexivity|]. apply elem_of_map_to_list. exact Hk.
  - intros key call Hk. apply Hkeep. left.
    apply list_elem_of_fmap. exists (key, call).
    split; [reflexivity|]. apply elem_of_map_to_list. exact Hk.
Qed.

Lemma receive_fail_sweeps_witness :
  exists c',
    receive_fail (IOError "EOF") one_pending = Some c' /\
    pending c' = ∅ /\ shutdown c' = true /\ receiving c' = false /\
    encoder c' = encoder one_pending /\
    forall key call, pending one_pending !! key = Some call ->
                     failed_with (IOError "EOF") c' call.
Proof.
  destruct (receive_fail (IOError "EOF") one_pending) as [c'|] eqn:Hf;
    [|vm_compute in Hf; discriminate].
  exists c'. split; [reflexivity|].
  exact (receive_fail_sweeps (IOError "EOF") one_pending c' Hf).
Defined.

(** ** Closing the client *)

(** X14: a client that is shut down or closing takes no more calls.  Every
    call with a non-null id, of a supported type or not, is completed at
    once with the error ["client is shut down or closing"]: nothing is
    written, nothing is registered, and the call is sent once on its
    channel. *)
Theorem closed_client_rejects (id : Value) (call : CallRef) (k : Call) (ch : Chan)
    (err : option GoError) (c : Client) :
  closed_client c -> id <> VNil ->
  calls c !! call = Some k -> chans c !! Done k = Some ch -> has_room ch ->
  exists c',
    send id call err c = Some c' /\
    encoder c' = encoder c /\ pending c' = pending c /\ sending c' = sending c /\
    calls c' !! call
      = Some (with_error k (Some (ErrorsNew "client is shut down or closing"))) /\
    chans c' !! Done k = Some (sent ch call).
Proof.
  intros Hcl Hid Hk Hch Hroom. unfold send.
  rewrite (send_begin_closed id call c Hid Hcl).
  destruct (fail_call call k ch (Some (ErrorsNew "client is shut down or closing"))
              c Hk Hch Hroom)
    as (c' & Hsig & He & Hp & Hsd & _ & _ & Hc & Hd).
  exists c'. rewrite Hsig. simpl. repeat split; assumption.
Qed.

Lemma closed_client_rejects_witness :
  exists c',
    send (VInt KInt 2) 0%nat None (Close None one_pending).1 = Some c' /\
    encoder c' = encoder (Close None one_pending).1 /\
    pending c' = pending (Close None one_pending).1 /\
    sending c' = sending (Close None one_pending).1 /\
    calls c' !! 0%nat
      = Some (with_error add_call (Some (ErrorsNew "client is shut down or closing"))) /\
    chans c' !! Done add_call = Some (sent (mkChan 1 []) 0%nat).
Proof.
  apply (closed_client_rejects (VInt KInt 2) 0%nat add_call (mkChan 1 []) None
           (Close None one_pending).1).
  - reflexivity.
  - discriminate.
  - vm_compute. reflexivity.
  - vm_compute. reflexivity.
  - unfold has_room. simpl. lia.
Defined.

(** [Close] marks the client as closing and returns what closing the
    connection returned; it completes no pending call itself and writes
    nothing.  A second [Close] returns the error ["client is closing"] and
    changes nothing. *)
Theorem Close_twice (connErr connErr' : option GoError) (c : Client) :
  closing c = false ->
  (Close connErr c).2 = connErr /\
  closed_client (Close connErr c).1 /\
  pending (Close connErr c).1 = pending c /\
  calls (Close connErr c).1 = calls c /\
  chans (Close connErr c).1 = chans c /\
  encoder (Close connErr c).1 = encoder c /\
  Close connErr' (Close connErr c).1
    = ((Close connErr c).1, Some (ErrorsNew "client is closing")).
Proof.
  intros Hc. unfold Close, closed_client. rewrite Hc. simpl.
  repeat split. apply orb_true_r.
Qed.

Lemma Close_twice_witness :
  (Close None Dial).2 = None /\
  closed_client (Close None Dial).1 /\
  pending (Close None Dial).1 = pending Dial /\
  calls (Close None Dial).1 = calls Dial /\
  chans (Close None Dial).1 = chans Dial /\
  encoder (Close None Dial).1 = encoder Dial /\
  Close (Some (IOError "use of closed network connection")) (Close None Dial).1
    = ((Close None Dial).1, Some (ErrorsNew "client is closing")).
Proof.
  apply (Close_twice None (Some (IOError "use of closed network connection")) Dial).
  reflexivity.
Defined.

Section Flags.

Lemma send_begin_flags (id : Value) (call : CallRef) (c c' : Client) (b : bool) :
  send_begin id call c = Some (c', b) ->
  shutdown c' = shutdown c /\ closing c' = closing c.
Proof.
  assert (Hret : forall e, returned (signal call (set_call_error call e c)) = Some (c', b) ->
                           shutdown c' = shutdown c /\ closing c' = closing c).
  { intros e H. unfold returned in H.
    destruct (signal call (set_call_error call e c)) as [c1|] eqn:Hsig; [|discriminate].
    injection H as <- _.
    apply signal_frame in Hsig as (_ & _ & _ & Hc & Hs & _). simpl in *. auto. }
  unfold send_begin.
  destruct id; try apply Hret;
    (destruct (shutdown c || closing c); [apply Hret|]);
    simpl; try apply Hret; intros H; injection H as <- _; simpl; auto.
Qed.

Lemma GoWithID_flags id method args reply done (c c' : Client) (b : bool) :
  (GoWithID id method args reply done c).1 = Some (c', b) ->
  shutdown c' = shutdown c /\ closing c' = closing c.
Proof.
  destruct done as [ch|]; lazy beta iota zeta delta [fst snd Go next_seq GoWithID new_call make_chan CallWithID Call_];
    intros H; apply send_begin_flags in H; exact H.
Qed.

Lemma Go_flags method args reply done (c c' : Client) (b : bool) :
  (Go method args reply done c).1 = Some (c', b) ->
  shutdown c' = shutdown c /\ closing c' = closing c.
Proof.
  destruct done as [ch|]; lazy beta iota zeta delta [fst snd Go next_seq GoWithID new_call make_chan CallWithID Call_];
    intros H; apply send_begin_flags in H; exact H.
Qed.

Lemma CallWithID_flags id method args reply (c c' : Client) (b : bool) :
  (CallWithID id method args reply c).1 = Some (c', b) ->
  shutdown c' = shutdown c /\ closing c' = closing c.
Proof.
  lazy beta iota zeta delta [fst snd Go next_seq GoWithID new_call make_chan CallWithID Call_].
  intros H. apply send_begin_flags in H. exact H.
Qed.

Lemma Call_flags method args reply (c c' : Client) (b : bool) :
  (Call_ method args reply c).1 = Some (c', b) ->
  shutdown c' = shutdown c /\ closing c' = closing c.
Proof.
  lazy beta iota zeta delta [fst snd Go next_seq GoWithID new_call make_chan CallWithID Call_].
  intros H. apply send_begin_flags in H. exact H.
Qed.

End Flags.

(** X15: the flags are never reset.  Whatever the goroutines of the client
    do, a client that is shut down stays shut down and a client that is
    closing stays closing, so it never takes calls again. *)
Theorem closed_for_good (c c' : Client) :
  step c c' ->
  (shutdown c = true -> shutdown c' = true) /\
  (closing c = true -> closing c' = true).
Proof.
  intros [a c0 c1 Hact]. destruct a; cbn [act] in Hact.
  - destruct (GoWithID id method args reply done c0).1 as [[c2 b]|] eqn:HG; [|discriminate].
    injection Hact as <-. apply GoWithID_flags in HG as [-> ->]. auto.
  - destruct (Go method args reply done c0).1 as [[c2 b]|] eqn:HG; [|discriminate].
    injection Hact as <-. apply Go_flags in HG as [-> ->]. auto.
  - destruct (CallWithID id method args reply c0).1 as [[c2 b]|] eqn:HG; [|discriminate].
    injection Hact as <-. apply CallWithID_flags in HG as [-> ->]. auto.
  - destruct (Call_ method args reply c0).1 as [[c2 b]|] eqn:HG; [|discriminate].
    injection Hact as <-. apply Call_flags in HG as [-> ->]. auto.
  - unfold send_finish in Hact.
    destruct (sending c0 !! call) as [[id idKey]|]; [|discriminate].
    destruct (calls c0 !! call) as [k|]; [|discriminate].
    destruct err as [e|].
    + apply signal_frame in Hact as (_ & _ & _ & Hc & Hs & _). simpl in *.
      destruct (decide (pending c0 !! idKey = Some call)); simpl in *;
        rewrite Hc, Hs; auto.
    + injection Hact as <-. simpl. auto.
  - unfold receive_response in Hact.
    destruct (receiving c0); [|discriminate].
    destruct (idToKey (protocol.resp_ID res)) as [idKey [e|]].
    + injection Hact as <-. auto.
    + destruct (pending c0 !! idKey) as [call|].
      * apply signal_frame in Hact as (_ & _ & _ & Hc & Hs & _).
        rewrite Hc, Hs.
        destruct (protocol.Error res); simpl; [auto|].
        destruct (calls c0 !! call) as [[m a [t|] er dn]|]; simpl; auto.
        destruct (json_Unmarshal jsonData t); simpl; auto.
      * injection Hact as <-. simpl. auto.
  - unfold receive_fail in Hact. destruct (receiving c0); [|discriminate].
    apply foldl_fail_spec in Hact as (_ & Hs & _ & _ & Hc & _). simpl in *.
    rewrite Hs, Hc. auto.
  - unfold Close in Hact. destruct (closing c0) eqn:Hc; injection Hact as <-; simpl; auto.
  - unfold receive in Hact. destruct (chans c0 !! ch) as [[n [|x rest]]|]; try discriminate.
    injection Hact as <-. simpl. auto.
Qed.

Lemma closed_for_good_witness :
  (shutdown (Close None Dial).1 = true ->
   shutdown (Close None (Close None Dial).1).1 = true) /\
  (closing (Close None Dial).1 = true ->
   closing (Close None (Close None Dial).1).1 = true).
Proof.
  apply (closed_for_good (Close None Dial).1 (Close None (Close None Dial).1).1).
  apply (step_act (AClose None)). reflexivity.
Defined.

(** ** Registering calls *)

(** X16: ids with the same key displace each other.  When a call is pending
    under a key and a second call is sent whose id has the same key (as the
    ids 1 and ["1"] have), the second call takes the slot and the first is no
    longer in the pending map, although it was not completed: no response
    and no failure of the connection will reach it. *)
Theorem colliding_id_displaces (id : Value) (key : string) (call1 call2 : CallRef)
    (c : Client) :
  open_client c ->
  idToKey id = (key, None) ->
  pending c !! key = Some call1 ->
  (forall key', pending c !! key' = Some call1 -> key' = key) ->
  call1 <> call2 ->
  exists c1,
    send_begin id call2 c = Some (c1, true) /\
    pending c1 !! key = Some call2 /\
    (forall key', pending c1 !! key' <> Some call1) /\
    calls c1 = calls c /\ chans c1 = chans c /\ encoder c1 = encoder c.
Proof.
  intros [Hs Hc] Hkey Hp Huniq Hne.
  assert (Hid : id <> VNil) by (intros ->; discriminate).
  rewrite (send_begin_open id call2 c Hid Hs Hc), Hkey.
  eexists. split; [reflexivity|]. simpl.
  split; [apply lookup_insert_eq|]. split; [|repeat split].
  intros key' Hk'. destruct (decide (key' = key)) as [->|Hd].
  - rewrite lookup_insert_eq in Hk'. congruence.
  - rewrite lookup_insert_ne in Hk' by congruence. apply Hd, Huniq, Hk'.
Qed.

Lemma colliding_id_displaces_witness :
  exists c1,
    send_begin (VString "1") 1%nat one_pending = Some (c1, true) /\
    pending c1 !! "1"%string = Some 1%nat /\
    (forall key', pending c1 !! key' <> Some 0%nat) /\
    calls c1 = calls one_pending /\ chans c1 = chans one_pending /\
    encoder c1 = encoder one_pending.
Proof.
  apply (colliding_id_displaces (VString "1") "1" 0%nat 1%nat one_pending).
  - split; reflexivity.
  - reflexivity.
  - vm_compute. reflexivity.
  - intros key' H. unfold one_pending in H. simpl in H.
    apply lookup_singleton_Some in H as [H _]. symmetry. exact H.
  - discriminate.
Defined.

(** X17: [GoWithID] with a nil [done] does not wait on any channel, whatever
    the id and the state of the client in which [send] takes the mutex: the
    call gets a fresh channel of capacity 10, every other channel is left as
    it was, and either the call is registered under the key of its id, or it
    carries an error and has been sent once on the fresh channel, with the
    pending map unchanged.  Nothing is written in either case.  Waiting for
    the mutex itself is not covered: the receive loop keeps the mutex while
    its final loop is parked on a full channel. *)
Theorem GoWithID_returns (id : Value) (method : string) (args : option JSON)
    (reply : option Target) (c : Client) :
  exists c' b,
    (GoWithID id method args reply None c).1 = Some (c', b) /\
    encoder c' = encoder c /\
    (forall x, x <> size (chans c) -> chans c' !! x = chans c !! x) /\
    if b then
      exists key, idToKey id = (key, None) /\
                  pending c' !! key = Some (GoWithID id method args reply None c).2
    else
      pending c' = pending c /\
      (exists e, calls c' !! (GoWithID id method args reply None c).2
                 = Some (mkCall method args reply (Some e) (size (chans c)))) /\
      chans c' !! size (chans c)
        = Some (mkChan 10 [(GoWithID id method args reply None c).2]).
Proof.
  lazy beta iota zeta delta [fst snd GoWithID new_call make_chan].
  set (ch := size (chans c)).
  set (c1 := set_chans (<[ch := mkChan 10 []]> (chans c)) c).
  set (call := size (calls c1)).
  set (k := mkCall method args reply None ch).
  set (c2 := set_calls (<[call := k]> (calls c1)) c1).
  assert (Hk : calls c2 !! call = Some k) by apply lookup_insert_eq.
  assert (Hch : chans c2 !! Done k = Some (mkChan 10 [])) by apply lookup_insert_eq.
  assert (Hroom : has_room (mkChan 10 [])) by (unfold has_room; simpl; lia).
  assert (Hfail : forall e, exists c',
             returned (signal call (set_call_error call (Some e) c2)) = Some (c', false) /\
             encoder c' = encoder c /\ pending c' = pending c /\
             calls c' !! call = Some (mkCall method args reply (Some e) ch) /\
             chans c' !! ch = Some (mkChan 10 [call]) /\
             (forall x, x <> ch -> chans c' !! x = chans c !! x)).
  { intros e.
    rewrite (signal_ok call (with_error k (Some e)) (mkChan 10 [])
               (set_call_error call (Some e) c2)).
    - eexists. split; [reflexivity|].
      unfold set_call_error. cbn [encoder pending calls chans set_chans set_calls Done with_error].
      split; [reflexivity|]. split; [reflexivity|]. split; [|split].
      + rewrite lookup_alter_eq, Hk. reflexivity.
      + apply lookup_insert_eq.
      + intros x Hx. change (Done k) with ch.
        rewrite lookup_insert_ne by (intros H; apply Hx; symmetry; exact H).
        apply lookup_insert_ne. intros H. apply Hx. symmetry. exact H.
    - unfold set_call_error. cbn [calls set_calls].
      rewrite lookup_alter_eq. exact (f_equal (fmap _) Hk).
    - exact Hch.
    - exact Hroom. }
  assert (Hdone : forall e o, o = returned (signal call (set_call_error call (Some e) c2)) ->
            exists c' b, o = Some (c', b) /\ encoder c' = encoder c /\
              (forall x, x <> ch -> chans c' !! x = chans c !! x) /\
              if b then exists key, idToKey id = (key, None) /\ pending c' !! key = Some call
              else pending c' = pending c /\
                   (exists e, calls c' !! call = Some (mkCall method args reply (Some e) ch)) /\
                   chans c' !! ch = Some (mkChan 10 [call])).
  { intros e o ->. destruct (Hfail e) as (c' & Hr & He & Hp & Hc & Hd & Hfr).
    exists c', false. rewrite Hr. repeat split; eauto. }
  destruct (Value_nil_dec id) as [->|Hid].
  - eapply Hdone. reflexivity.
  - destruct (shutdown c2 || closing c2) eqn:Hcl.
    + rewrite (send_begin_closed id call c2 Hid Hcl). eapply Hdone. reflexivity.
    + apply orb_false_iff in Hcl as [Hs Hc].
      rewrite (send_begin_open id call c2 Hid Hs Hc).
      destruct (idToKey id) as [key [e|]].
      * eapply Hdone. reflexivity.
      * eexists _, true. split; [reflexivity|]. simpl. split; [reflexivity|].
        split; [intros x Hx; apply lookup_insert_ne; intros H; apply Hx; symmetry; exact H|].
        exists key. split; [reflexivity|apply lookup_insert_eq].
Qed.



(** ** A call and its response *)

(** X19: a call finds its response.  On an open client whose receive loop
    is running, a call sent with the integer id [n] is registered under the
    digits of [n] and its request is written; when a response then arrives
    whose id is the float with value [n], as the JSON decoder delivers it,
    the call is completed from that response, sent once on its channel, and
    its key is free again. *)
Theorem call_round_trip (n : Z) (ik : IntKind) (fk : FloatKind) (f : spec_float)
    (res : protocol.Response) (jsonData : JSON) (call : CallRef) (k : Call)
    (ch : Chan) (c : Client) :
  open_client c -> receiving c = true ->
  calls c !! call = Some k -> chans c !! Done k = Some ch -> has_room ch ->
  float_is_integer f n -> (n = 0 -> float_sign f = false) ->
  protocol.resp_ID res = VFloat fk f ->
  exists c1 c2,
    send (VInt ik n) call None c = Some c1 /\
    encoder c1 = encoder c ++ [request_of k (VInt ik n)] /\
    pending c1 !! digits n = Some call /\
    receive_response res jsonData c1 = Some c2 /\
    pending c2 !! digits n = None /\
    calls c2 !! call = Some (completed k res jsonData) /\
    chans c2 !! Done k = Some (sent ch call) /\
    encoder c2 = encoder c1.
Proof.
  intros [Hs Hc] Hrecv Hk Hch Hroom Hf Hz Hid.
  unfold send. rewrite (send_begin_open (VInt ik n) call c) by (discriminate || assumption).
  cbn [idToKey]. unfold send_finish. cbn [sending set_sending set_pending calls].
  rewrite lookup_insert_eq, Hk.
  eexists. match goal with |- exists c2, Some ?c1 = _ /\ _ => set (c1' := c1) end.
  destruct (receive_response_match res jsonData (digits n) call k ch c1')
    as (c2 & Hr & Hp & Hcalls & Hchans & He & _).
  - exact Hrecv.
  - rewrite Hid. rewrite (float_key_of_int n ik fk f Hf Hz). reflexivity.
  - apply lookup_insert_eq.
  - exact Hk.
  - exact Hch.
  - exact Hroom.
  - exists c2. split; [reflexivity|]. split; [reflexivity|].
    split; [apply lookup_insert_eq|]. split; [exact Hr|].
    split; [rewrite Hp; apply lookup_delete_eq|]. repeat split; assumption.
Qed.

Lemma call_round_trip_witness :
  exists c1 c2,
    send (VInt KUint64 1) 0%nat None (new_call add_call (make_chan 1 Dial).1).1 = Some c1 /\
    encoder c1 = encoder (new_call add_call (make_chan 1 Dial).1).1
                 ++ [request_of add_call (VInt KUint64 1)] /\
    pending c1 !! digits 1 = Some 0%nat /\
    receive_response (result_response (VFloat KFloat64 float_one) (VInt KInt 15))
                     (JInt 15) c1 = Some c2 /\
    pending c2 !! digits 1 = None /\
    calls c2 !! 0%nat
      = Some (completed add_call
                (result_response (VFloat KFloat64 float_one) (VInt KInt 15)) (JInt 15)) /\
    chans c2 !! Done add_call = Some (sent (mkChan 1 []) 0%nat) /\
    encoder c2 = encoder c1.
Proof.
  apply (call_round_trip 1 KUint64 KFloat64 float_one
           (result_response (VFloat KFloat64 float_one) (VInt KInt 15)) (JInt 15)
           0%nat add_call (mkChan 1 []) (new_call add_call (make_chan 1 Dial).1).1).
  - split; reflexivity.
  - reflexivity.
  - vm_compute. reflexivity.
  - vm_compute. reflexivity.
  - unfold has_room. simpl. lia.
  - vm_compute. reflexivity.
  - intros H. discriminate H.
  - reflexivity.
Defined.

(** ** The onion *)

Section Onion.

Lemma open_handlers_snoc (evs : list Event) (e : Event) :
  open_handlers (evs ++ [e]) = open_step (open_handlers evs) e.
Proof. unfold open_handlers. rewrite foldl_app. reflexivity. Qed.

Lemma open_are_stable (st : list nat) : stable (open_are st).
Proof.
  intros c Hc. unfold open_are in *. simpl.
  repeat split; intros; rewrite ?open_handlers_snoc, Hc; reflexivity.
Qed.

(** [Next] returns with the handlers open that were open when it was called. *)
Lemma Next_balanced :
  forall fuel st c c', open_are st c -> Next fuel c = Some c' -> open_are st c'.
Proof.
  induction fuel as [|fuel IH]; intros st c c' Hc HN; cbn [Next] in HN;
    set (c1 := log_event EvNext (set_handlerIdx (handlerIdx c + 1) c)) in *;
    assert (Hc1 : open_are st c1)
      by (unfold open_are, c1 in *; simpl; rewrite open_handlers_snoc, Hc; reflexivity);
    destruct (handlerIdx c1 <? Z.of_nat (length (handlerChain c1)));
    try (injection HN as <-; exact Hc1);
    destruct (handlerIdx c1 <? 0); try discriminate;
    destruct (handlerChain c1 !! Z.to_nat (handlerIdx c1)) as [h|]; try discriminate.
  set (i := Z.to_nat (handlerIdx c1)) in *.
  destruct (exec (Next fuel) h (log_event (EvEnter i) c1)) as [c2|] eqn:Hex; [|discriminate].
  injection HN as <-.
  assert (Hc2 : open_are (i :: st) c2).
  { eapply (exec_keeps (open_are (i :: st)) (Next fuel)); [|apply open_are_stable| |exact Hex].
    - intros c0 c0' H0 HN0. eapply IH; eassumption.
    - unfold open_are in *.
      change (events (log_event (EvEnter i) c1)) with (events c1 ++ [EvEnter i]).
      rewrite open_handlers_snoc, Hc1. reflexivity. }
  unfold open_are in *.
  change (events (log_event (EvLeave i) c2)) with (events c2 ++ [EvLeave i]).
  rewrite open_handlers_snoc, Hc2. simpl.
  rewrite decide_True by reflexivity. reflexivity.
Qed.

End Onion.

(** ** Who advances the chain *)

Section Callers.

Lemma open_step_None (l : list Event) : foldl open_step None l = None.
Proof. induction l as [|e l IH]; [reflexivity|]. destruct e; exact IH. Qed.

Lemma open_handlers_app (l1 l2 : list Event) :
  open_handlers (l1 ++ l2) = foldl open_step (open_handlers l1) l2.
Proof. unfold open_handlers. apply foldl_app. Qed.

Lemma open_handlers_prefix (l1 l2 : list Event) (st : list nat) :
  open_handlers (l1 ++ l2) = Some st -> exists st1, open_handlers l1 = Some st1.
Proof.
  rewrite open_handlers_app. destruct (open_handlers l1) as [st1|]; [eauto|].
  rewrite open_step_None. discriminate.
Qed.

Lemma entered_app (l1 l2 : list Event) :
  entered (l1 ++ l2) = entered l1 ++ entered l2.
Proof. unfold entered. apply omap_app. Qed.

Lemma entered_none (l : list Event) :
  (forall j, EvEnter j ∉ l) -> entered l = [].
Proof.
  induction l as [|e l IH]; intros Hl; [reflexivity|].
  destruct e; try (apply IH; intros j Hj; apply (Hl j); right; exact Hj).
  exfalso. apply (Hl i). left.
Qed.

Lemma entered_elem (l : list Event) (j : nat) : EvEnter j ∈ l -> j ∈ entered l.
Proof.
  intros Hj. apply list_elem_of_split in Hj as (l1 & l2 & ->).
  rewrite entered_app, elem_of_app. right. left.
Qed.

(** The open handlers have all been entered. *)
Lemma open_in_entered (l : list Event) :
  forall st, open_handlers l = Some st -> forall x, x ∈ st -> x ∈ entered l.
Proof.
  induction l as [|e l IH] using rev_ind; intros st Hst x Hx.
  - injection Hst as <-. inversion Hx.
  - rewrite open_handlers_snoc in Hst. rewrite entered_snoc, elem_of_app.
    destruct (open_handlers l) as [st1|]; [|destruct e; discriminate].
    destruct e; simpl in Hst.
    + injection Hst as <-. left. eauto.
    + injection Hst as <-. apply elem_of_cons in Hx as [->|Hx]; [right; left|left; eauto].
    + destruct st1 as [|j l']; [discriminate|].
      destruct (decide (i = j)); [|discriminate]. injection Hst as <-.
      left. eapply IH; [reflexivity|]. right. exact Hx.
    + injection Hst as <-. left. eauto.
    + injection Hst as <-. left. eauto.
Qed.

(** A stretch of history that enters no handler only closes open ones. *)
Lemma open_no_enter (l : list Event) :
  (forall j, EvEnter j ∉ l) ->
  forall st0 st, foldl open_step (Some st0) l = Some st -> exists d, st0 = d ++ st.
Proof.
  induction l as [|e l IH]; intros Hl st0 st Hf.
  - injection Hf as <-. exists []. reflexivity.
  - assert (Hl' : forall j, EvEnter j ∉ l) by (intros j Hj; apply (Hl j); right; exact Hj).
    destruct e; cbn [foldl open_step] in Hf; try (apply (IH Hl' _ _ Hf)).
    + exfalso. apply (Hl i). left.
    + destruct st0 as [|j l0]; [rewrite open_step_None in Hf; discriminate|].
      destruct (decide (i = j)); [|rewrite open_step_None in Hf; discriminate].
      destruct (IH Hl' _ _ Hf) as [d ->]. exists (j :: d). reflexivity.
Qed.

(** Where an index sits in [0, 1, ..., k-1]. *)
Lemma seq_split (k : nat) (a b : list nat) (x : nat) :
  List.seq 0 k = a ++ x :: b ->
  x = length a /\
  (forall y, y ∈ a -> (y < x)%nat) /\
  (forall y, y ∈ b -> (x < y)%nat).
Proof.
  intros Heq.
  assert (Hat : forall n y, (a ++ x :: b) !! n = Some y -> y = n).
  { intros n y Hn. rewrite <- Heq in Hn. apply lookup_seq in Hn as [-> _]. reflexivity. }
  assert (Hx : x = length a) by (apply Hat, list_lookup_middle; reflexivity).
  split; [exact Hx|]. split.
  - intros y Hy. apply list_elem_of_lookup in Hy as [n Hn].
    pose proof (lookup_lt_Some _ _ _ Hn) as Hlt.
    rewrite (Hat n y); [lia|]. rewrite lookup_app_l by exact Hlt. exact Hn.
  - intros y Hy. apply list_elem_of_lookup in Hy as [n Hn].
    rewrite (Hat (length a + S n)%nat y); [lia|].
    rewrite lookup_app_r by lia.
    replace (length a + S n - length a)%nat with (S n) by lia. exact Hn.
Qed.

Lemma next_has_caller_snoc (evs : list Event) (e : Event) :
  next_has_caller evs ->
  (e = EvNext ->
   evs = [] \/ exists caller rest, open_handlers evs = Some (caller :: rest)) ->
  next_has_caller (evs ++ [e]).
Proof.
  intros Hevs He l1 l2 Heq.
  destruct (snoc_case l2) as [-> | (l2' & y & ->)].
  - apply app_inj_tail in Heq as [-> ->]. apply He. reflexivity.
  - rewrite app_comm_cons, app_assoc in Heq. apply app_inj_tail in Heq as [-> _].
    eapply Hevs. reflexivity.
Qed.

Lemma callers_stable (st : list nat) :
  stable (fun c => open_are st c /\ next_has_caller (events c)).
Proof.
  intros c [Ho Hn].
  destruct (open_are_stable st c Ho) as (Hr & He & Hs).
  split; [|split]; intros; (split; [auto|]); simpl;
    try (apply next_has_caller_snoc; [exact Hn|discriminate]); exact Hn.
Qed.

(** [Next] is only ever called by [handleRequest], at the start, or by a
    handler that is running. *)
Lemma Next_callers :
  forall fuel st c c',
    open_are st c -> next_has_caller (events c) ->
    (events c = [] \/ st <> []) ->
    Next fuel c = Some c' -> next_has_caller (events c').
Proof.
  induction fuel as [|fuel IH]; intros st c c' Hc Hn Hcall HN; cbn [Next] in HN;
    set (c1 := log_event EvNext (set_handlerIdx (handlerIdx c + 1) c)) in *;
    assert (Hc1 : open_are st c1)
      by (unfold open_are, c1 in *; simpl; rewrite open_handlers_snoc, Hc; reflexivity);
    assert (Hn1 : next_has_caller (events c1))
      by (apply next_has_caller_snoc; [exact Hn|]; intros _;
          destruct Hcall as [H|H]; [left; exact H|right];
          unfold open_are in Hc; destruct st; [congruence|eauto]);
    destruct (handlerIdx c1 <? Z.of_nat (length (handlerChain c1)));
    try (injection HN as <-; exact Hn1);
    destruct (handlerIdx c1 <? 0); try discriminate;
    destruct (handlerChain c1 !! Z.to_nat (handlerIdx c1)) as [h|]; try discriminate.
  set (i := Z.to_nat (handlerIdx c1)) in *.
  destruct (exec (Next fuel) h (log_event (EvEnter i) c1)) as [c2|] eqn:Hex; [|discriminate].
  injection HN as <-.
  assert (Hc2 : open_are (i :: st) c2 /\ next_has_caller (events c2)).
  { eapply (exec_keeps (fun c => open_are (i :: st) c /\ next_has_caller (events c))
                       (Next fuel)); [|apply callers_stable| |exact Hex].
    - intros c0 c0' [H0 H0n] HN0. split; [eapply Next_balanced; eassumption|].
      eapply IH; [exact H0|exact H0n|right; discriminate|exact HN0].
    - split.
      + unfold open_are in *.
        change (events (log_event (EvEnter i) c1)) with (events c1 ++ [EvEnter i]).
        rewrite open_handlers_snoc, Hc1. reflexivity.
      + change (events (log_event (EvEnter i) c1)) with (events c1 ++ [EvEnter i]).
        apply next_has_caller_snoc; [exact Hn1|discriminate]. }
  change (events (log_event (EvLeave i) c2)) with (events c2 ++ [EvLeave i]).
  apply next_has_caller_snoc; [apply Hc2|discriminate].
Qed.

(** A handler that runs to its end with a [Next] that never returns runs the
    same way with any [Next]. *)
Lemma exec_poison (next : Context -> option Context) (h : HandlerFunc) :
  forall c c2, runs_without_next h c c2 -> exec next h c = Some c2.
Proof.
  unfold runs_without_next.
  induction h as [|k IH|data k IH|err k IH|k IH|k IH|v k IH|key value k IH|key k IH|k IH];
    intros c c2 Hex; simpl in *; try discriminate; eauto.
  destruct (Bind c v) as [[c1 v1] e1]. eauto.
Qed.

(** Such a handler leaves the cursor and the list of entered handlers as
    they are. *)
Lemma runs_without_next_keeps (h : HandlerFunc) (c c2 : Context) :
  runs_without_next h c c2 ->
  handlerIdx c2 = handlerIdx c /\ entered (events c2) = entered (events c).
Proof.
  intros Hex.
  apply (exec_keeps (fun c0 => handlerIdx c0 = handlerIdx c /\
                               entered (events c0) = entered (events c))
                    (fun _ => None)) with (h := h) (c := c); [| | |exact Hex].
  - intros c0 c0' _ H. discriminate.
  - intros c0 [Hi He]. repeat split; intros; simpl;
      rewrite ?entered_snoc, ?app_nil_r; assumption.
  - split; reflexivity.
Qed.

(** The call of [Next] that runs a handler which does not call [Next]
    returns as soon as that handler does. *)
Lemma Next_returns_after_handler (fuel : nat) (c : Context) (h : HandlerFunc)
    (c2 : Context) :
  0 <= handlerIdx c + 1 ->
  handlerChain c !! Z.to_nat (handlerIdx c + 1) = Some h ->
  runs_without_next h
    (log_event (EvEnter (Z.to_nat (handlerIdx c + 1)))
       (log_event EvNext (set_handlerIdx (handlerIdx c + 1) c))) c2 ->
  Next (S fuel) c = Some (log_event (EvLeave (Z.to_nat (handlerIdx c + 1))) c2) /\
  handlerIdx c2 = handlerIdx c + 1 /\
  entered (events c2) = entered (events c) ++ [Z.to_nat (handlerIdx c + 1)].
Proof.
  intros Hnn Hh Hrun.
  destruct (runs_without_next_keeps _ _ _ Hrun) as [Hi He].
  split; [|split].
  - cbn [Next].
    change (handlerIdx (log_event EvNext (set_handlerIdx (handlerIdx c + 1) c)))
      with (handlerIdx c + 1).
    change (handlerChain (log_event EvNext (set_handlerIdx (handlerIdx c + 1) c)))
      with (handlerChain c).
    pose proof (lookup_lt_Some _ _ _ Hh) as Hlt.
    destruct (Z.ltb_spec (handlerIdx c + 1) (Z.of_nat (length (handlerChain c))));
      [|lia].
    destruct (Z.ltb_spec (handlerIdx c + 1) 0); [lia|].
    rewrite Hh, (exec_poison (Next fuel) h _ c2 Hrun). reflexivity.
  - exact Hi.
  - rewrite He. simpl. rewrite !entered_snoc, app_nil_r. reflexivity.
Qed.

(** After the handler at index [i] has returned without calling [Next], and
    until the next handler is entered, only handlers below [i] are open. *)
Lemma open_after_return (pre body l0 : list Event) (i : nat) (st : list nat) :
  (forall x, x ∈ entered pre -> (x < i)%nat) ->
  (forall j, EvEnter j ∉ body) -> (forall j, EvEnter j ∉ l0) ->
  open_handlers (pre ++ EvEnter i :: body ++ EvLeave i :: l0) = Some st ->
  forall x, x ∈ st -> (x < i)%nat.
Proof.
  intros Hpre Hbody Hl0 Hopen x Hx.
  rewrite open_handlers_app in Hopen. cbn [foldl] in Hopen.
  destruct (open_handlers pre) as [st0|] eqn:H0;
    [|cbn [open_step fmap option_fmap option_map] in Hopen;
      rewrite open_step_None in Hopen; discriminate].
  assert (Hst0 : forall y, y ∈ st0 -> (y < i)%nat)
    by (intros y Hy; apply Hpre; eapply open_in_entered; eassumption).
  change (open_step (Some st0) (EvEnter i)) with (Some (i :: st0)) in Hopen.
  rewrite foldl_app in Hopen. cbn [foldl] in Hopen.
  destruct (foldl open_step (Some (i :: st0)) body) as [st1|] eqn:H1;
    [|cbn [open_step] in Hopen; rewrite open_step_None in Hopen; discriminate].
  destruct (open_no_enter body Hbody _ _ H1) as [d Hd].
  destruct st1 as [|j st2];
    [cbn [open_step] in Hopen; rewrite open_step_None in Hopen; discriminate|].
  cbn [open_step] in Hopen.
  destruct (decide (i = j)) as [<-|];
    [|rewrite open_step_None in Hopen; discriminate].
  destruct (open_no_enter l0 Hl0 _ _ Hopen) as [d' Hd'].
  destruct d as [|d0 d1]; simpl in Hd.
  - injection Hd as Hd. apply Hst0. rewrite Hd, Hd'. apply elem_of_app. right. exact Hx.
  - injection Hd as _ Hd. exfalso.
    assert (i < i)%nat; [|lia].
    apply Hst0. rewrite Hd. apply elem_of_app. right. left.
Qed.

End Callers.

(** C2, amended: when the handler at the cursor returns without calling
    [Next], the call of [Next] that invoked it returns right after it, with
    the cursor still at its index and no other handler entered.  In the
    history of a request, no handler is entered while such a handler, at
    index [i], runs; every handler entered after its return has a larger
    index and is entered by a further call of [Next]; the first of them is
    the handler at [i + 1], and the call of [Next] that enters it is made by
    a handler at an index below [i] that is still running.  When nothing
    writes the result or the error after the return of the handler at [i],
    the response is built from the slots as they were when it returned. *)
Theorem short_circuit (s : Server) (enc out : list protocol.Response)
    (req : protocol.Request) (evs pre body post : list Event) (i : nat) :
  handleRequest s enc req = Some (out, evs) ->
  evs = pre ++ EvEnter i :: body ++ EvLeave i :: post ->
  EvNext ∉ body ->
  (forall fuel c h c2,
     0 <= handlerIdx c + 1 ->
     handlerChain c !! Z.to_nat (handlerIdx c + 1) = Some h ->
     runs_without_next h
       (log_event (EvEnter (Z.to_nat (handlerIdx c + 1)))
          (log_event EvNext (set_handlerIdx (handlerIdx c + 1) c))) c2 ->
     Next (S fuel) c = Some (log_event (EvLeave (Z.to_nat (handlerIdx c + 1))) c2) /\
     handlerIdx c2 = handlerIdx c + 1 /\
     entered (events c2) = entered (events c) ++ [Z.to_nat (handlerIdx c + 1)]) /\
  (forall j, EvEnter j ∉ body) /\
  (forall l1 j l2, post = l1 ++ EvEnter j :: l2 ->
     (i < j)%nat /\
     exists l0, l1 = l0 ++ [EvNext] /\
       ((forall j', EvEnter j' ∉ l1) ->
        j = S i /\
        exists caller rest,
          open_handlers (pre ++ EvEnter i :: body ++ EvLeave i :: l0)
            = Some (caller :: rest) /\
          (caller < i)%nat)) /\
  (Forall (fun e => ~ is_write e) post ->
   out = enc ++ [respond (protocol.ID req) (state_of (pre ++ EvEnter i :: body))]).
Proof.
  intros Hh Hevs Hbody.
  split; [intros fuel c h c2 Hnn Hh0 Hrun; exact (Next_returns_after_handler fuel c h c2 Hnn Hh0 Hrun)|].
  destruct (handleRequest_cases s enc req)
    as [[_ Hh']|[(_ & _ & Hh')|(entry & ctx' & _ & _ & HN & Hen & Hh')]];
    rewrite Hh' in Hh; injection Hh as <- <-.
  - destruct pre; discriminate.
  - destruct pre; discriminate.
  - set (fc := globalMiddlewares s ++ chain entry) in *.
    assert (Hord : exists k, entered (events ctx') = List.seq 0 k).
    { destruct (Next_in_order fc (length fc) (newContext req fc) ctx') as (_ & _ & H).
      - unfold in_order, newContext. simpl. repeat split; try lia.
        replace (Z.to_nat (Z.min (-1 + 1) (Z.of_nat (length fc)))) with 0%nat by lia.
        reflexivity.
      - exact HN.
      - eauto. }
    destruct Hord as [k Hord].
    assert (Hcal : next_has_caller (events ctx')).
    { eapply (Next_callers (length fc) [] (newContext req fc) ctx');
        [reflexivity| |left; reflexivity|exact HN].
      intros l1 l2 Heq. destruct l1; discriminate. }
    rewrite Hevs in *.
    assert (Hnb : forall j, EvEnter j ∉ body).
    { eapply (no_enter_without_next pre body (EvLeave i :: post) (EvEnter i));
        [exact Hen|discriminate|exact Hbody]. }
    assert (Hentered : List.seq 0 k = entered pre ++ i :: entered post).
    { rewrite <- Hord, entered_app.
      change (entered (EvEnter i :: body ++ EvLeave i :: post))
        with (i :: entered (body ++ EvLeave i :: post)).
      rewrite entered_app, (entered_none body Hnb). reflexivity. }
    destruct (seq_split k _ _ _ Hentered) as (Hi & Hlt & Hgt).
    split; [exact Hnb|]. split.
    + intros l1 j l2 Hpost. split.
      { apply Hgt. rewrite Hpost. apply entered_elem, elem_of_app. right. left. }
      assert (Hl0 : exists l0, l1 = l0 ++ [EvNext]).
      { destruct (Hen (pre ++ EvEnter i :: body ++ EvLeave i :: l1) l2 j) as [l0' Hl0'].
        { rewrite Hpost. repeat (rewrite <- app_assoc; simpl). reflexivity. }
        destruct (snoc_case l1) as [-> | (l1' & y & ->)].
        - replace (pre ++ EvEnter i :: body ++ [EvLeave i])
            with ((pre ++ EvEnter i :: body) ++ [EvLeave i]) in Hl0'
            by (rewrite <- app_assoc; reflexivity).
          apply app_inj_tail in Hl0' as [_ H]. discriminate.
        - replace (pre ++ EvEnter i :: body ++ EvLeave i :: l1' ++ [y])
            with ((pre ++ EvEnter i :: body ++ EvLeave i :: l1') ++ [y]) in Hl0'
            by (repeat (rewrite <- app_assoc; simpl); reflexivity).
          apply app_inj_tail in Hl0' as [_ ->]. eauto. }
      destruct Hl0 as [l0 Hl0]. exists l0. split; [exact Hl0|].
      intros Hl1.
      assert (Hl0n : forall j', EvEnter j' ∉ l0).
      { intros j' Hj'. apply (Hl1 j'). rewrite Hl0. apply elem_of_app. left. exact Hj'. }
      split.
      * destruct (seq_split k (entered pre ++ [i]) (entered l2) j) as (Hj & _ & _).
        { rewrite Hentered, Hpost, entered_app, (entered_none l1 Hl1), <- app_assoc.
          reflexivity. }
        rewrite length_app in Hj. simpl in Hj. lia.
      * destruct (Hcal (pre ++ EvEnter i :: body ++ EvLeave i :: l0) (EvEnter j :: l2))
          as [Hnil|(caller & rest & Hopen)].
        { rewrite Hpost, Hl0. repeat (rewrite <- app_assoc; simpl). reflexivity. }
        { destruct pre; discriminate. }
        exists caller, rest. split; [exact Hopen|].
        eapply (open_after_return pre body l0 i);
          [exact Hlt|exact Hnb|exact Hl0n|exact Hopen|left].
    + intros Hw. f_equal. f_equal. f_equal.
      change (pre ++ EvEnter i :: body ++ EvLeave i :: post)
        with (pre ++ (EvEnter i :: body) ++ EvLeave i :: post).
      rewrite app_assoc. apply state_of_app_no_write.
      constructor; [intros []|exact Hw].
Qed.

Lemma short_circuit_witness :
  (forall fuel c h c2,
     0 <= handlerIdx c + 1 ->
     handlerChain c !! Z.to_nat (handlerIdx c + 1) = Some h ->
     runs_without_next h
       (log_event (EvEnter (Z.to_nat (handlerIdx c + 1)))
          (log_event EvNext (set_handlerIdx (handlerIdx c + 1) c))) c2 ->
     Next (S fuel) c = Some (log_event (EvLeave (Z.to_nat (handlerIdx c + 1))) c2) /\
     handlerIdx c2 = handlerIdx c + 1 /\
     entered (events c2) = entered (events c) ++ [Z.to_nat (handlerIdx c + 1)]) /\
  (forall j, EvEnter j ∉ []) /\
  (forall l1 j l2,
     [EvNext; EvEnter 2; EvResult (VString "x"); EvLeave 2; EvLeave 0]
       = l1 ++ EvEnter j :: l2 ->
     (1 < j)%nat /\
     exists l0, l1 = l0 ++ [EvNext] /\
       ((forall j', EvEnter j' ∉ l1) ->
        j = 2%nat /\
        exists caller rest,
          open_handlers ([EvNext; EvEnter 0; EvNext] ++ EvEnter 1 :: [] ++ EvLeave 1 :: l0)
            = Some (caller :: rest) /\
          (caller < 1)%nat)) /\
  (Forall (fun e => ~ is_write e)
          [EvNext; EvEnter 2; EvResult (VString "x"); EvLeave 2; EvLeave 0] ->
   [{| protocol.Jsonrpc := "2.0"; protocol.Result := VString "x";
       protocol.Error := None; protocol.resp_ID := VString "a" |}]
   = [] ++ [respond (protocol.ID (request "m" (VString "a")))
                    (state_of ([EvNext; EvEnter 0; EvNext] ++ EvEnter 1 :: []))]).
Proof.
  apply (short_circuit (serve "m" [twice_handler; idle_handler; x_handler]) []
           [{| protocol.Jsonrpc := "2.0"; protocol.Result := VString "x";
               protocol.Error := None; protocol.resp_ID := VString "a" |}]
           (request "m" (VString "a"))
           [EvNext; EvEnter 0; EvNext; EvEnter 1; EvLeave 1; EvNext; EvEnter 2;
            EvResult (VString "x"); EvLeave 2; EvLeave 0]
           [EvNext; EvEnter 0; EvNext] []
           [EvNext; EvEnter 2; EvResult (VString "x"); EvLeave 2; EvLeave 0] 1%nat).
  - vm_compute. reflexivity.
  - reflexivity.
  - apply not_elem_of_nil.
Defined.
